(** * Patent Innovation Radar: ingestion and embedding synchronisation

    A shallow embedding of the ingestion client and loader
    ([services/api/ingest.py]) and of the three writers of the vector
    index ([scripts/generate_embeddings.py], [ml/models/ml_services.py],
    [scripts/populate_qdrant.py]), with the properties of the
    specification stated and settled against them. *)

From Stdlib Require Import ZArith QArith Qround Lqa Lia List Bool DecimalString.
From stdpp Require Import base option list gmap strings countable sorting.

Local Open Scope Z_scope.

(* ===================================================================== *)
(** ** JSON documents, as the Python values the code inspects *)
(* ===================================================================== *)

Module Json.

#[local] Unset Elimination Schemes.

(** A value decoded by [response.json()]: [None], [bool], [int], [str],
    [list], [dict].  Numbers are integers; a dict keeps its items in
    order. *)
Inductive json : Type :=
| JNull
| JBool (b : bool)
| JNum (n : Z)
| JStr (s : string)
| JList (items : list json)
| JObj (fields : list (string * json)).

#[local] Set Elimination Schemes.

(** Python truthiness, as tested by [if not x] and [x or y]. *)
Definition truthy (v : json) : bool :=
  match v with
  | JNull => false
  | JBool b => b
  | JNum n => negb (n =? 0)
  | JStr s => negb (String.eqb s "")
  | JList items => match items with [] => false | _ => true end
  | JObj fields => match fields with [] => false | _ => true end
  end.

(** [isinstance(x, list)]. *)
Definition is_list (v : json) : bool :=
  match v with JList _ => true | _ => false end.

(** [d.get(k, default)] on a dict given by its items. *)
Fixpoint get_default (d : list (string * json)) (k : string) (dflt : json) : json :=
  match d with
  | [] => dflt
  | (k', v) :: rest => if String.eqb k' k then v else get_default rest k dflt
  end.

(** [d.get(k)]: [None] when the key is absent. *)
Definition get (d : list (string * json)) (k : string) : json :=
  get_default d k JNull.

(** [x or y]. *)
Definition py_or (x y : json) : json := if truthy x then x else y.

(** Structural equality is decidable. *)
Fixpoint json_eqb (x y : json) {struct x} : bool :=
  match x, y with
  | JNull, JNull => true
  | JBool a, JBool b => Bool.eqb a b
  | JNum a, JNum b => a =? b
  | JStr a, JStr b => String.eqb a b
  | JList xs, JList ys =>
      (fix go (xs ys : list json) {struct xs} : bool :=
         match xs, ys with
         | [], [] => true
         | x :: xs', y :: ys' => json_eqb x y && go xs' ys'
         | _, _ => false
         end) xs ys
  | JObj xs, JObj ys =>
      (fix go (xs ys : list (string * json)) {struct xs} : bool :=
         match xs, ys with
         | [], [] => true
         | (k, x) :: xs', (k', y) :: ys' =>
             String.eqb k k' && json_eqb x y && go xs' ys'
         | _, _ => false
         end) xs ys
  | _, _ => false
  end.

(** Induction over nested documents. *)
Section json_ind_nested.
Variable P : json -> Prop.
Hypothesis Hnull : P JNull.
Hypothesis Hbool : forall b, P (JBool b).
Hypothesis Hnum : forall n, P (JNum n).
Hypothesis Hstr : forall s, P (JStr s).
Hypothesis Hlist : forall items, Forall P items -> P (JList items).
Hypothesis Hobj : forall fields, Forall (fun kv => P (snd kv)) fields -> P (JObj fields).

Fixpoint json_nested_ind (v : json) : P v :=
  match v with
  | JNull => Hnull
  | JBool b => Hbool b
  | JNum n => Hnum n
  | JStr s => Hstr s
  | JList items =>
      Hlist items
        ((fix go (l : list json) : Forall P l :=
            match l with
            | [] => @List.Forall_nil _ P
            | x :: l' => @List.Forall_cons _ P x l' (json_nested_ind x) (go l')
            end) items)
  | JObj fields =>
      Hobj fields
        ((fix go (l : list (string * json)) : Forall (fun kv => P (snd kv)) l :=
            match l with
            | [] => @List.Forall_nil _ _
            | kv :: l' => @List.Forall_cons _ _ kv l' (json_nested_ind (snd kv)) (go l')
            end) fields)
  end.
End json_ind_nested.

Lemma json_eqb_eq (x y : json) : json_eqb x y = true <-> x = y.
Proof.
  revert y. induction x as [| b | n | s | items IH | fields IH] using json_nested_ind;
    intros y; destruct y as [| b' | n' | s' | items' | fields']; simpl;
    try (split; [discriminate | discriminate]); try (split; reflexivity).
  - rewrite Bool.eqb_true_iff. split; congruence.
  - rewrite Z.eqb_eq. split; congruence.
  - rewrite String.eqb_eq. split; congruence.
  - revert items'. induction IH as [| x xs Hx _ IHxs]; intros [| y ys].
    + split; reflexivity.
    + split; discriminate.
    + split; discriminate.
    + rewrite andb_true_iff, Hx, IHxs. split.
      * intros [-> H]. congruence.
      * intros H. injection H as -> ->. split; reflexivity.
  - revert fields'. induction IH as [| [k x] xs Hx _ IHxs]; intros [| [k' y] ys].
    + split; reflexivity.
    + split; discriminate.
    + split; discriminate.
    + simpl in Hx. rewrite !andb_true_iff, String.eqb_eq, Hx, IHxs. split.
      * intros [[-> ->] H]. congruence.
      * intros H. injection H as -> -> ->. repeat split; reflexivity.
Qed.

#[export] Instance json_eq_dec : EqDecision json.
Proof.
  intros x y. destruct (json_eqb x y) eqn:E.
  - left. apply json_eqb_eq, E.
  - right. intros H. apply json_eqb_eq in H. congruence.
Defined.

(** Documents are countable, so they can key the tables of the store. *)
Definition leaf : Type := (bool + Z + string)%type.

Fixpoint to_tree (v : json) : gen_tree leaf :=
  match v with
  | JNull => GenNode 0 []
  | JBool b => GenLeaf (inl (inl b))
  | JNum n => GenLeaf (inl (inr n))
  | JStr s => GenLeaf (inr s)
  | JList items => GenNode 1 (List.map to_tree items)
  | JObj fields =>
      GenNode 2 (List.map (fun kv => GenNode 3 [GenLeaf (inr (fst kv)); to_tree (snd kv)]) fields)
  end.

Fixpoint of_tree (t : gen_tree leaf) : json :=
  match t with
  | GenLeaf (inl (inl b)) => JBool b
  | GenLeaf (inl (inr n)) => JNum n
  | GenLeaf (inr s) => JStr s
  | GenNode 1 ts => JList (List.map of_tree ts)
  | GenNode 2 ts =>
      JObj (List.map (fun t' =>
                        match t' with
                        | GenNode _ [GenLeaf (inr k); tv] => (k, of_tree tv)
                        | _ => (EmptyString, JNull)
                        end) ts)
  | GenNode _ _ => JNull
  end.

Lemma of_to_tree (v : json) : of_tree (to_tree v) = v.
Proof.
  induction v as [| b | n | s | items IH | fields IH] using json_nested_ind;
    simpl; try reflexivity.
  - f_equal. induction IH as [| x xs Hx _ IHxs]; simpl; [reflexivity |].
    now rewrite Hx, IHxs.
  - f_equal. induction IH as [| [k x] xs Hx _ IHxs]; simpl; [reflexivity |].
    simpl in Hx. now rewrite Hx, IHxs.
Qed.

#[export] Instance json_countable : Countable json :=
  inj_countable' to_tree of_tree of_to_tree.

End Json.

(* ===================================================================== *)
(** ** The relational store and its transactions *)
(* ===================================================================== *)

Module Db.
Import Json.

(** Instants and dates are seconds on one time line. *)
Abbreviation Time := Q (only parsing).

(** A row of [patents]; SQL [NULL] is [JNull] (or [None]). *)
Record PatentRow : Type := mkPatentRow {
  publication_number : json;
  publication_date : option Time;
  filing_date : option Time;
  title : json;
  abstract : json;
  num_claims : json;
  primary_cpc_code : option string;
  cpc_codes : list string;
  num_citations : Z;
  raw_data : string;
  ingested_at : Time;
  last_updated_at : option Time
}.

(** A row of [assignees] or of [inventors] (which has no [type]). *)
Record EntityRow : Type := mkEntityRow {
  ent_name : json;
  ent_type : json;
  ent_raw_data : string;
  ent_ingested_at : Time;
  ent_last_updated_at : option Time
}.

(** The tables the loader writes and the embedding scripts read.  The
    link tables are keyed by the pair of ids and carry [position]. *)
Record Store : Type := mkStore {
  patents : gmap json PatentRow;
  assignees : gmap json EntityRow;
  inventors : gmap json EntityRow;
  patent_assignees : gmap (json * json) Z;
  patent_inventors : gmap (json * json) Z
}.

Definition empty_store : Store := mkStore ∅ ∅ ∅ ∅ ∅.

(** The five statements of [load_patents], with their bound parameters. *)
Inductive Stmt : Type :=
| UpsertPatent (patent_id pub_num pub_date file_date title abstract num_claims : json)
               (cpc : option string) (cpcs : list string) (citations : Z) (raw : string)
| UpsertAssignee (id name type : json) (raw : string)
| LinkAssignee (patent_id assignee_id : json) (pos : Z)
| UpsertInventor (id name : json) (raw : string)
| LinkInventor (patent_id inventor_id : json) (pos : Z).

(** What the database server decides and the source does not: which
    statements it rejects (constraint, type or serialization errors),
    whether a rejected statement aborts the enclosing transaction (as
    PostgreSQL, the engine of the default [DATABASE_URL], does), how a
    bound value is read as a [DATE], and the default of
    [last_updated_at] for a fresh row. *)
Record Engine : Type := mkEngine {
  rejects : Store -> Stmt -> bool;
  strict : bool;
  to_date : json -> option Time;
  fresh_last_updated_at : Time -> option Time
}.

(** [COALESCE(a, b)]. *)
Definition coalesce (a b : json) : json :=
  match a with JNull => b | _ => a end.

(** The row [ON CONFLICT (patent_id) DO UPDATE SET last_updated_at = NOW(),
    raw_data = EXCLUDED.raw_data,
    abstract = COALESCE(EXCLUDED.abstract, patents.abstract),
    num_claims = COALESCE(EXCLUDED.num_claims, patents.num_claims)]
    leaves in place of [old]. *)
Definition merge_row (now : Time) (old : PatentRow) (abs ncl : json) (raw : string)
  : PatentRow :=
  mkPatentRow (publication_number old) (publication_date old) (filing_date old)
    (title old) (coalesce abs (abstract old)) (coalesce ncl (num_claims old))
    (primary_cpc_code old) (cpc_codes old) (num_citations old)
    raw (ingested_at old) (Some now).

(** [INSERT INTO patents (...) VALUES (...) ON CONFLICT (patent_id) DO UPDATE ...]. *)
Definition upsert_patent (eng : Engine) (now : Time) (tbl : gmap json PatentRow)
    (patent_id pub_num pub_date file_date ttl abs ncl : json)
    (cpc : option string) (cpcs : list string) (citations : Z) (raw : string)
  : gmap json PatentRow :=
  match tbl !! patent_id with
  | None =>
      <[patent_id := mkPatentRow pub_num (to_date eng pub_date) (to_date eng file_date)
                       ttl abs ncl cpc cpcs citations raw now
                       (fresh_last_updated_at eng now)]> tbl
  | Some old => <[patent_id := merge_row now old abs ncl raw]> tbl
  end.

(** [INSERT INTO assignees/inventors ... ON CONFLICT (id) DO UPDATE SET
    last_updated_at = NOW()]. *)
Definition upsert_entity (eng : Engine) (now : Time) (tbl : gmap json EntityRow)
    (id name type : json) (raw : string) : gmap json EntityRow :=
  match tbl !! id with
  | None => <[id := mkEntityRow name type raw now (fresh_last_updated_at eng now)]> tbl
  | Some old =>
      <[id := mkEntityRow (ent_name old) (ent_type old) (ent_raw_data old)
                (ent_ingested_at old) (Some now)]> tbl
  end.

(** Modelled from the spec: the schema of the link tables is not in
    the source; link rows are keyed by [(patent_id, entity_id)] and
    carry [position].  With it,
    [INSERT INTO patent_assignees/patent_inventors ... ON CONFLICT DO NOTHING]
    inserts the row if the pair is absent. *)
Definition insert_link (tbl : gmap (json * json) Z) (patent_id entity_id : json) (pos : Z)
  : gmap (json * json) Z :=
  match tbl !! (patent_id, entity_id) with
  | None => <[(patent_id, entity_id) := pos]> tbl
  | Some _ => tbl
  end.

(** The effect of an accepted statement. *)
Definition apply_stmt (eng : Engine) (now : Time) (s : Store) (st : Stmt) : Store :=
  match st with
  | UpsertPatent pid pn pd fd ttl abs ncl cpc cpcs cit raw =>
      mkStore (upsert_patent eng now (patents s) pid pn pd fd ttl abs ncl cpc cpcs cit raw)
              (assignees s) (inventors s) (patent_assignees s) (patent_inventors s)
  | UpsertAssignee id name type raw =>
      mkStore (patents s) (upsert_entity eng now (assignees s) id name type raw)
              (inventors s) (patent_assignees s) (patent_inventors s)
  | LinkAssignee pid aid pos =>
      mkStore (patents s) (assignees s) (inventors s)
              (insert_link (patent_assignees s) pid aid pos) (patent_inventors s)
  | UpsertInventor id name raw =>
      mkStore (patents s) (assignees s)
              (upsert_entity eng now (inventors s) id name JNull raw)
              (patent_assignees s) (patent_inventors s)
  | LinkInventor pid iid pos =>
      mkStore (patents s) (assignees s) (inventors s)
              (patent_assignees s) (insert_link (patent_inventors s) pid iid pos)
  end.

(** What [except Exception as e] can catch inside the loader. *)
Inductive Exc : Type :=
| AttributeError (receiver : json)
| StatementError (st : Stmt)
| InFailedSqlTransaction (st : Stmt).

(** An open transaction of [engine.begin()]: the store as it was when
    the transaction began, the store as its statements see it, the
    instant [NOW()] reports, and whether a rejected statement has aborted it. *)
Record Txn : Type := mkTxn {
  base : Store;
  work : Store;
  started : Time;
  aborted : bool
}.

Definition begin (now : Time) (s : Store) : Txn := mkTxn s s now false.

(** [conn.execute(stmt, params)]. *)
Definition execute (eng : Engine) (t : Txn) (st : Stmt) : Txn * option Exc :=
  if strict eng && aborted t then (t, Some (InFailedSqlTransaction st))
  else if rejects eng (work t) st then
    (mkTxn (base t) (work t) (started t) true, Some (StatementError st))
  else
    (mkTxn (base t) (apply_stmt eng (started t) (work t) st) (started t) (aborted t), None).

(** Leaving the [with] block normally commits; an aborted transaction
    of a strict engine commits nothing. *)
Definition commit (eng : Engine) (t : Txn) : Store :=
  if strict eng && aborted t then base t else work t.

End Db.

(* ===================================================================== *)
(** ** [PatentDataLoader.load_patents] *)
(* ===================================================================== *)

Module Loader.
Import Json Db.

(** The Python builtins the loader calls on values: [str()] and
    [json.dumps()]. *)
Record Runtime : Type := mkRuntime {
  py_str : json -> string;
  json_dumps : json -> string
}.

(** A raw record: a dict, by its items. *)
Abbreviation Record_ := (list (string * json)) (only parsing).

(** The [stats] dict. *)
Record LoadStats : Type := mkLoadStats {
  inserted : Z;
  updated : Z;
  errors : Z;
  error_list : list Exc
}.

Definition stats0 : LoadStats := mkLoadStats 0 0 0 [].

(** How the body of the [try] ends for one record. *)
Inductive Outcome : Type :=
| Skipped
| Completed
| Raised (e : Exc).

Section WithEnv.
Variable rt : Runtime.
Variable eng : Engine.

(** [cpc_codes], from a list or a scalar. *)
Definition extract_cpc_codes (patent : Record_) : list string :=
  match get patent "cpc_code" with
  | JList items => List.map (py_str rt) items
  | v => if truthy v then [py_str rt v] else []
  end.

(** [len(...) if isinstance(..., list) else 0]. *)
Definition count_citations (patent : Record_) : Z :=
  match get patent "cited_patent_id" with
  | JList items => Z.of_nat (length items)
  | _ => 0
  end.

(** [x = patent.get(k, []); if not isinstance(x, list): x = [x] if x else []]. *)
Definition as_list (patent : Record_) (k : string) : list json :=
  match get_default patent k (JList []) with
  | JList items => items
  | v => if truthy v then [v] else []
  end.

(** The loop over [enumerate(assignees)]. *)
Fixpoint load_assignees (patent_id : json) (idx : Z) (l : list json) (t : Txn)
  : Txn * option Exc :=
  match l with
  | [] => (t, None)
  | assignee :: rest =>
      if negb (truthy assignee) then load_assignees patent_id (idx + 1) rest t
      else
        match assignee with
        | JObj d =>
            let assignee_id := get d "assignee_id" in
            if negb (truthy assignee_id) then load_assignees patent_id (idx + 1) rest t
            else
              match execute eng t
                      (UpsertAssignee assignee_id (get d "assignee_name")
                         (get d "assignee_type") (json_dumps rt assignee)) with
              | (t1, Some e) => (t1, Some e)
              | (t1, None) =>
                  match execute eng t1 (LinkAssignee patent_id assignee_id idx) with
                  | (t2, Some e) => (t2, Some e)
                  | (t2, None) => load_assignees patent_id (idx + 1) rest t2
                  end
              end
        | _ => (t, Some (AttributeError assignee))
        end
  end.

(** The loop over [enumerate(inventors)]. *)
Fixpoint load_inventors (patent_id : json) (idx : Z) (l : list json) (t : Txn)
  : Txn * option Exc :=
  match l with
  | [] => (t, None)
  | inventor :: rest =>
      if negb (truthy inventor) then load_inventors patent_id (idx + 1) rest t
      else
        match inventor with
        | JObj d =>
            let inventor_id := get d "inventor_id" in
            if negb (truthy inventor_id) then load_inventors patent_id (idx + 1) rest t
            else
              match execute eng t
                      (UpsertInventor inventor_id (get d "inventor_name")
                         (json_dumps rt inventor)) with
              | (t1, Some e) => (t1, Some e)
              | (t1, None) =>
                  match execute eng t1 (LinkInventor patent_id inventor_id idx) with
                  | (t2, Some e) => (t2, Some e)
                  | (t2, None) => load_inventors patent_id (idx + 1) rest t2
                  end
              end
        | _ => (t, Some (AttributeError inventor))
        end
  end.

(** The statement that upserts the patent row of a record. *)
Definition patent_stmt (patent : Record_) : Stmt :=
  let patent_id := get patent "patent_id" in
  let cpc_codes := extract_cpc_codes patent in
  UpsertPatent patent_id
    (py_or (get patent "publication_number") (JStr ("US" ++ py_str rt patent_id)))
    (get patent "patent_date") (get patent "filing_date")
    (get patent "patent_title") (get patent "patent_abstract")
    (get patent "patent_num_claims")
    (head cpc_codes) cpc_codes (count_citations patent)
    (json_dumps rt (JObj patent)).

(** The body of the [try] for one record. *)
Definition load_record (patent : Record_) (t : Txn) : Txn * Outcome :=
  let patent_id := get patent "patent_id" in
  if negb (truthy patent_id) then (t, Skipped)
  else
    match execute eng t (patent_stmt patent) with
    | (t1, Some e) => (t1, Raised e)
    | (t1, None) =>
        match load_assignees patent_id 0 (as_list patent "assignees") t1 with
        | (t2, Some e) => (t2, Raised e)
        | (t2, None) =>
            match load_inventors patent_id 0 (as_list patent "inventors") t2 with
            | (t3, Some e) => (t3, Raised e)
            | (t3, None) => (t3, Completed)
            end
        end
    end.

(** What the end of the [try] body and the [except] clause do to [stats]. *)
Definition count (st : LoadStats) (o : Outcome) : LoadStats :=
  match o with
  | Skipped => st
  | Completed => mkLoadStats (inserted st + 1) (updated st) (errors st) (error_list st)
  | Raised e => mkLoadStats (inserted st) (updated st) (errors st + 1) (error_list st ++ [e])
  end.

(** The [for patent in patents_data] loop, inside the one transaction. *)
Fixpoint load_loop (patents_data : list Record_) (t : Txn) (st : LoadStats)
  : Txn * LoadStats :=
  match patents_data with
  | [] => (t, st)
  | patent :: rest =>
      let (t', o) := load_record patent t in
      load_loop rest t' (count st o)
  end.

(** [load_patents]: one [engine.begin()] block around the loop. *)
Definition load_patents (now : Time) (s : Store) (patents_data : list Record_)
  : LoadStats * Store :=
  let (t, st) := load_loop patents_data (begin now s) stats0 in
  (st, commit eng t).

(** [get_last_ingestion_date]: [SELECT MAX(publication_date) FROM patents]. *)
Definition max_date (a b : option Time) : option Time :=
  match a, b with
  | Some x, Some y => Some (if Qle_bool x y then y else x)
  | Some x, None => Some x
  | None, _ => b
  end.

Definition get_last_ingestion_date (s : Store) : option Time :=
  map_fold (fun _ row acc => max_date (publication_date row) acc) None (patents s).

End WithEnv.

End Loader.

(* ===================================================================== *)
(** ** The process and its surroundings: clock, network, store *)
(* ===================================================================== *)

Module World.
Import Json Db.

(** The query parameters of one GET: the date of the lower bound (a
    day number, as [strftime("%Y-%m-%d")] prints it), the page, the
    page size and the API key.  The sort order and the field list are
    constants of the source. *)
Record Request : Type := mkRequest {
  q_patent_date_gte : Z;
  o_page : Z;
  o_per_page : Z;
  key : option string
}.

(** How [requests.get] ends. *)
Inductive HttpOutcome : Type :=
| Responded (status : Z) (body : list (string * json))
| ConnectionFailed
| TimedOut.

(** The subclasses of [requests.exceptions.RequestException] that
    [requests.get] and [raise_for_status] raise. *)
Inductive RequestError : Type :=
| HTTPError (status : Z)
| ConnectionError
| Timeout.

(** The exceptions that leave the client and the ingestion run. *)
Inductive PyError : Type :=
| RequestException (e : RequestError)
| ZeroDivisionError
| IllTypedPage (v : json).

(** What the surroundings decide: the server's answer to the [n]-th
    request, the time that passes before the [n]-th reading of the
    clock (scheduling, oversleeping, latency), and the jitter the
    retry decorator draws for its [n]-th wait. *)
Record Surroundings : Type := mkSurroundings {
  server : nat -> Request -> HttpOutcome;
  lag : nat -> Q;
  jitter : nat -> Q -> Q
}.

(** The state the run reads and writes.  [last_request_time] is the
    attribute of the one client object; [sent] and [slept] record the
    requests sent (with the instant) and the durations slept. *)
Record world : Type := mkWorld {
  clock : Q;
  reads : nat;
  last_request_time : Q;
  sent : list (Q * Request);
  slept : list Q;
  store : Store
}.

(** How a call ends. *)
Inductive result (A : Type) : Type :=
| Ok (a : A)
| Err (e : PyError).
Arguments Ok {A} a.
Arguments Err {A} e.

(** Computations over the world that may raise. *)
Definition M (A : Type) : Type := world -> result A * world.

Definition ret {A} (a : A) : M A := fun w => (Ok a, w).
Definition raise {A} (e : PyError) : M A := fun w => (Err e, w).
Definition lift {A} (r : result A) : M A := fun w => (r, w).
Definition bind {A B} (m : M A) (k : A -> M B) : M B :=
  fun w => match m w with
           | (Ok a, w') => k a w'
           | (Err e, w') => (Err e, w')
           end.

Declare Scope world_scope.
Delimit Scope world_scope with world.
Notation "x <- m ;; k" := (bind m (fun x => k))
  (at level 63, m at next level, right associativity) : world_scope.
Notation "m ;;; k" := (bind m (fun _ => k))
  (at level 63, right associativity) : world_scope.

Section Primitives.
Variable env : Surroundings.

(** [time.time()] and [datetime.now()]. *)
Definition time_time : M Q := fun w =>
  let t := (clock w + lag env (reads w))%Q in
  (Ok t, mkWorld t (S (reads w)) (last_request_time w) (sent w) (slept w) (store w)).

(** [time.sleep(d)]. *)
Definition sleep (d : Q) : M unit := fun w =>
  (Ok tt, mkWorld (clock w + d)%Q (reads w) (last_request_time w) (sent w)
                  (slept w ++ [d]) (store w)).

(** [self.last_request_time = t]. *)
Definition set_last_request_time (t : Q) : M unit := fun w =>
  (Ok tt, mkWorld (clock w) (reads w) t (sent w) (slept w) (store w)).

Definition get_last_request_time : M Q := fun w => (Ok (last_request_time w), w).

(** [requests.get(BASE_URL, params, timeout)]. *)
Definition http_get (r : Request) : M HttpOutcome := fun w =>
  (Ok (server env (length (sent w)) r),
   mkWorld (clock w) (reads w) (last_request_time w) (sent w ++ [(clock w, r)])
           (slept w) (store w)).

(** The next jittered wait of the retry decorator. *)
Definition draw_jitter (v : Q) : M Q := fun w =>
  (Ok (jitter env (length (slept w)) v), w).

Definition get_store : M Store := fun w => (Ok (store w), w).
Definition put_store (s : Store) : M unit := fun w =>
  (Ok tt, mkWorld (clock w) (reads w) (last_request_time w) (sent w) (slept w) s).
End Primitives.

End World.

(* ===================================================================== *)
(** ** [PatentsViewClient] *)
(* ===================================================================== *)

Module Client.
Import Json Db World.
Local Open Scope world_scope.

(** The attributes set by [__init__] and never changed. *)
Record PatentsViewClient : Type := mkClient {
  api_key : option string;
  rate_limit_per_sec : Q;
  retries : Z;
  timeout : Z
}.

(** Seconds in [timedelta(days=n)]. *)
Definition days (n : Z) : Q := inject_Z (n * 86400).

(** The day [strftime("%Y-%m-%d")] prints. *)
Definition date_of (t : Q) : Z := Qfloor (t / inject_Z 86400).

(** [response.raise_for_status(); return response.json()], and the
    exceptions of [requests.get] itself: every status from 400 to 599
    raises [HTTPError]. *)
Definition result_of (outcome : HttpOutcome) : result (list (string * json)) :=
  match outcome with
  | Responded status body =>
      if (400 <=? status) && (status <? 600)
      then Err (RequestException (HTTPError status))
      else Ok body
  | ConnectionFailed => Err (RequestException ConnectionError)
  | TimedOut => Err (RequestException Timeout)
  end.

Section WithSurroundings.
Variable env : Surroundings.

(** [_rate_limit]. *)
Definition _rate_limit (self : PatentsViewClient) : M unit :=
  now <- time_time env ;;
  last <- get_last_request_time ;;
  let elapsed := (now - last)%Q in
  if Qeq_bool (rate_limit_per_sec self) 0 then raise ZeroDivisionError
  else
    let wait_time := (1 / rate_limit_per_sec self - elapsed)%Q in
    (if Qlt_le_dec 0 wait_time then sleep wait_time else ret tt) ;;;
    now' <- time_time env ;;
    set_last_request_time now'.

(** The body of [fetch_patents], one attempt. *)
Definition fetch_once (self : PatentsViewClient) (since : option Q) (limit offset : Z)
  : M (list (string * json)) :=
  _rate_limit self ;;;
  lower <- match since with
           | Some t => ret t
           | None => now <- time_time env ;; ret (now - days 7)%Q
           end ;;
  if limit =? 0 then raise ZeroDivisionError
  else
    let req := mkRequest (date_of lower) (offset / limit + 1) limit
                 (match api_key self with
                  | Some k => if String.eqb k "" then None else Some k
                  | None => None
                  end) in
    outcome <- http_get env req ;;
    lift (result_of outcome).

(** [backoff.expo(base=2, factor)]: the [n]-th wait before jitter. *)
Definition expo (factor : Q) (n : nat) : Q := (factor * inject_Z (2 ^ Z.of_nat n))%Q.

(** [backoff.on_exception(backoff.expo, RequestException, max_tries,
    factor)]: call the target; on a [RequestException], give up when
    this was the last try, otherwise sleep the jittered wait and
    call again.  [remaining] is [max_tries] minus the tries made,
    [n] the waits drawn so far. *)
Fixpoint on_exception {A} (remaining n : nat) (factor : Q) (target : M A) : M A :=
  fun w =>
    match target w with
    | (Ok a, w') => (Ok a, w')
    | (Err (RequestException e), w') =>
        match remaining with
        | O => (Err (RequestException e), w')
        | S remaining' =>
            (seconds <- draw_jitter env (expo factor n) ;;
             sleep seconds ;;;
             on_exception remaining' (S n) factor target) w'
        end
    | (Err e, w') => (Err e, w')
    end.

(** [fetch_patents] as decorated: [max_tries=3, factor=2]. *)
Definition max_tries : nat := 3.

Definition fetch_patents (self : PatentsViewClient) (since : option Q) (limit offset : Z)
  : M (list (string * json)) :=
  on_exception (max_tries - 1) 0 2 (fetch_once self since limit offset).

End WithSurroundings.

End Client.

(* ===================================================================== *)
(** ** [ingest_patents] *)
(* ===================================================================== *)

Module Ingest.
Import Json Db World Client.
Local Open Scope world_scope.

(** The [all_stats] dict. *)
Record AllStats : Type := mkAllStats {
  total_inserted : Z;
  total_updated : Z;
  total_errors : Z;
  batches_processed : Z
}.

Definition batch_size : Z := 1000.
Definition max_batches : Z := 10.

(** A page as [load_patents] types it, [List[Dict]]; any other truthy
    value under ["patents"] makes the run raise with the store
    unchanged. *)
Fixpoint all_dicts (items : list json) : option (list (list (string * json))) :=
  match items with
  | [] => Some []
  | JObj d :: rest => option_map (cons d) (all_dicts rest)
  | _ :: _ => None
  end.

Definition records_of (page : json) : option (list (list (string * json))) :=
  match page with
  | JList items => all_dicts items
  | _ => None
  end.

(** [since = datetime.now() - timedelta(days=since_days)]. *)
Definition since_of (now : Q) (since_days : Z) : Q := (now - days since_days)%Q.

Section WithEnv.
Variable env : Surroundings.
Variable rt : Loader.Runtime.
Variable eng : Engine.

(** [loader.load_patents(patents)] against the store of the world;
    [NOW()] is the instant the transaction begins. *)
Definition load (patents_data : list (list (string * json))) : M Loader.LoadStats :=
  now <- time_time env ;;
  s <- get_store ;;
  let (stats, s') := Loader.load_patents rt eng now s patents_data in
  put_store s' ;;;
  ret stats.

Definition add_stats (all : AllStats) (stats : Loader.LoadStats) : AllStats :=
  mkAllStats (total_inserted all + Loader.inserted stats)
             (total_updated all + Loader.updated stats)
             (total_errors all + Loader.errors stats)
             (batches_processed all + 1).

(** The [while offset < max_batches * batch_size] loop; [None] when
    [fuel] iterations did not reach its end. *)
Fixpoint ingest_loop (fuel : nat) (client : PatentsViewClient) (since : Q)
    (offset : Z) (all : AllStats) : M (option AllStats) :=
  match fuel with
  | O => ret None
  | S fuel' =>
      if offset <? max_batches * batch_size then
        response <- fetch_patents env client (Some since) batch_size offset ;;
        let page := get response "patents" in
        if negb (truthy page) then ret (Some all)
        else
          match records_of page with
          | None => raise (IllTypedPage page)
          | Some patents_data =>
              stats <- load patents_data ;;
              let all' := add_stats all stats in
              if Z.of_nat (length patents_data) <? batch_size then ret (Some all')
              else ingest_loop fuel' client since (offset + batch_size) all'
          end
      else ret (Some all)
  end.

(** [ingest_patents(db_url, api_key, since_days)]. *)
Definition ingest_patents (api_key : option string) (since_days : Z)
  : M (option AllStats) :=
  let client := mkClient api_key 1 3 30 in
  set_last_request_time 0 ;;;
  now <- time_time env ;;
  let since := since_of now since_days in
  ingest_loop (S (Z.to_nat max_batches)) client since 0 (mkAllStats 0 0 0 0).

End WithEnv.

End Ingest.

(* ===================================================================== *)
(** ** Embedding synchronisation: the relational table and the vector index *)
(* ===================================================================== *)

(** [generate_embeddings.py] names [QdrantClient], [SentenceTransformer],
    [PointStruct], [VectorParams] and [Distance] without importing
    them; they are taken here as the classes its two sibling modules
    import under these names. *)

Module Embed.
Import Json Db.

(** A stored point of the collection, and a [PointStruct] to upsert. *)
Record Point : Type := mkPoint {
  vector : list Q;
  payload : list (string * json)
}.

Record PointStruct : Type := mkPointStruct {
  id : Z;
  ps_vector : list Q;
  ps_payload : list (string * json)
}.

(** The collection ["patents"]: its vector size once created, and its
    points by id. *)
Record VectorIndex : Type := mkIndex {
  collection : option Z;
  points : gmap Z Point
}.

Definition empty_index : VectorIndex := mkIndex None ∅.

(** [client.upsert(collection_name, points)]: a point replaces the
    point that has its id. *)
Definition upsert (pts : list PointStruct) (ix : gmap Z Point) : gmap Z Point :=
  foldl (fun m p => <[id p := mkPoint (ps_vector p) (ps_payload p)]> m) ix pts.

(** A row of [embeddings], with the columns the two writers set. *)
Record EmbeddingRow : Type := mkEmbeddingRow {
  embedding_vector : option (list Q);
  model : option string;
  embedding_model_id : option string;
  embedding_dim : option Z;
  qdrant_id : option string;
  created_at : Q;
  updated_at : option Q
}.

(** The relational side as the embedding scripts see it. *)
Record Rel : Type := mkRel {
  rel_patents : gmap json PatentRow;
  rel_embeddings : gmap json EmbeddingRow
}.

(** An entry of [embeddings_data]. *)
Record Embedding : Type := mkEmbedding {
  e_patent_id : json;
  e_embedding : list Q;
  e_model : string;
  e_created_at : Q
}.

(** Why a step raises. *)
Inductive Failure : Type :=
| ValueError
| SqlError
| IndexError
| VectorIndexUnavailable.

(** [range(0, len(l), batch_size)] with [l[i:i+batch_size]]: a zero
    step raises, a negative one gives no batch. *)
Fixpoint chunks_fuel {A} (fuel n : nat) (l : list A) : list (list A) :=
  match fuel with
  | O => []
  | S fuel' =>
      match l with
      | [] => []
      | _ :: _ => take n l :: chunks_fuel fuel' n (drop n l)
      end
  end.

Definition batches {A} (batch_size : Z) (l : list A) : option (list (list A)) :=
  if batch_size =? 0 then None
  else if batch_size <? 0 then Some []
  else Some (chunks_fuel (length l) (Z.to_nat batch_size) l).

(** [ORDER BY filing_date DESC]: [NULL] dates first. *)
Definition filing_geb (a b : json * PatentRow) : bool :=
  match filing_date (snd a), filing_date (snd b) with
  | None, _ => true
  | Some _, None => false
  | Some x, Some y => Qle_bool y x
  end.

(** What the surroundings of a run decide: the embedding model
    ([None] when [encode] raises), the readings of [datetime.now()],
    [NOW()], and whether the relational store and the vector index
    accept the writes. *)
Record Env : Type := mkEnv {
  encode : list json -> option (list (list Q));
  clock : nat -> Q;
  db_now : Q;
  sql_ok : bool;
  index_up : bool
}.

Section GenerateEmbeddings.
Variable env : Env.

(** [get_patents_needing_embeddings]: the patents that have no row
    in [embeddings], latest filing first, at most [limit] of them. *)
Definition needing (rel : Rel) : list (json * PatentRow) :=
  merge_sort (fun a b => Is_true (filing_geb a b))
    (filter (fun kv => rel_embeddings rel !! fst kv = None)
            (map_to_list (rel_patents rel))).

Definition get_patents_needing_embeddings (rel : Rel) (limit : option Z)
  : Failure + list (json * json * json) :=
  let rows := List.map (fun kv => (fst kv, title (snd kv), abstract (snd kv))) (needing rel) in
  match limit with
  | None => inr rows
  | Some n =>
      if n =? 0 then inr rows
      else if n <? 0 then inl SqlError
      else inr (take (Z.to_nat n) rows)
  end.

(** One batch of [generate_embeddings_batch]: a batch whose
    [encode] raises contributes nothing. *)
Definition encode_batch (acc : list Embedding) (batch : list (json * json * json))
  : list Embedding :=
  match encode env (List.map (fun p => py_or (snd p) (snd (fst p))) batch) with
  | None => acc
  | Some vs =>
      foldl (fun acc pv =>
               acc ++ [mkEmbedding (fst (fst (fst pv))) (snd pv) "all-MiniLM-L6-v2"
                         (clock env (length acc))])
            acc (zip batch vs)
  end.

Definition generate_embeddings_batch (patents : list (json * json * json)) (batch_size : Z)
  : Failure + list Embedding :=
  match batches batch_size patents with
  | None => inl ValueError
  | Some bs => inr (foldl encode_batch [] bs)
  end.

(** [INSERT INTO embeddings ... ON CONFLICT (patent_id) DO UPDATE SET
    embedding_vector = EXCLUDED.embedding_vector, updated_at = NOW()]. *)
Definition upsert_embedding (tbl : gmap json EmbeddingRow) (e : Embedding)
  : gmap json EmbeddingRow :=
  match tbl !! e_patent_id e with
  | None =>
      <[e_patent_id e := mkEmbeddingRow (Some (e_embedding e)) (Some (e_model e))
                           None None None (e_created_at e) None]> tbl
  | Some old =>
      <[e_patent_id e := mkEmbeddingRow (Some (e_embedding e)) (model old)
                           (embedding_model_id old) (embedding_dim old) (qdrant_id old)
                           (created_at old) (Some (db_now env))]> tbl
  end.

(** [store_embeddings_postgresql]: all rows and a commit, or a
    rollback and the exception. *)
Definition store_embeddings_postgresql (rel : Rel) (data : list Embedding)
  : Failure + Rel :=
  if sql_ok env
  then inr (mkRel (rel_patents rel) (foldl upsert_embedding (rel_embeddings rel) data))
  else inl SqlError.

(** The points [store_embeddings_qdrant] prepares: [id=i] from
    [enumerate(embeddings_data)]. *)
Definition prepare_points (data : list Embedding) : list PointStruct :=
  imap (fun i e => mkPointStruct (Z.of_nat i) (e_embedding e)
                     [("patent_id"%string, e_patent_id e)]) data.

(** [store_embeddings_qdrant]. *)
Definition store_embeddings_qdrant (ix : VectorIndex) (data : list Embedding)
  : Failure + VectorIndex :=
  match data with
  | [] => inl IndexError
  | e0 :: _ =>
      if index_up env then
        let dim := Z.of_nat (length (e_embedding e0)) in
        let coll := match collection ix with Some d => Some d | None => Some dim end in
        inr (mkIndex coll (upsert (prepare_points data) (points ix)))
      else inl VectorIndexUnavailable
  end.

(** How the script ends: [return] or [sys.exit(1)]. *)
Inductive Exit : Type :=
| Exit0
| Exit1 (f : Failure).

(** [main], after the connections and the model are set up. *)
Definition main (limit : option Z) (batch_size : Z) (skip_qdrant : bool)
    (st : Rel * VectorIndex) : Exit * (Rel * VectorIndex) :=
  let (rel, ix) := st in
  match get_patents_needing_embeddings rel limit with
  | inl f => (Exit1 f, st)
  | inr [] => (Exit0, st)
  | inr patents =>
      match generate_embeddings_batch patents batch_size with
      | inl f => (Exit1 f, st)
      | inr data =>
          match store_embeddings_postgresql rel data with
          | inl f => (Exit1 f, st)
          | inr rel' =>
              if skip_qdrant then (Exit0, (rel', ix))
              else
                match store_embeddings_qdrant ix data with
                | inl f => (Exit1 f, (rel', ix))
                | inr ix' => (Exit0, (rel', ix'))
                end
          end
      end
  end.

End GenerateEmbeddings.

(** *** [EmbeddingService.store_embeddings] *)

Section EmbeddingService.
Variable env : Env.
Variable rt : Loader.Runtime.
Variable model_id : string.
Variable dim : Z.

(** The points it prepares: [id=idx] from [enumerate(embeddings.items())]. *)
Definition service_points (embeddings : list (string * list Q)) : list PointStruct :=
  imap (fun idx kv => mkPointStruct (Z.of_nat idx) (snd kv)
                        [("patent_id"%string, JStr (fst kv))]) embeddings.

(** [INSERT INTO embeddings (..., qdrant_id, ...) VALUES (..., str(idx), ...)
    ON CONFLICT (patent_id) DO UPDATE SET updated_at = NOW()]. *)
Definition record_embedding (tbl : gmap json EmbeddingRow) (idx : nat) (patent_id : string)
  : gmap json EmbeddingRow :=
  match tbl !! JStr patent_id with
  | None =>
      <[JStr patent_id := mkEmbeddingRow None None (Some model_id) (Some dim)
                            (Some (Loader.py_str rt (JNum (Z.of_nat idx))))
                            (db_now env) None]> tbl
  | Some old =>
      <[JStr patent_id := mkEmbeddingRow (embedding_vector old) (model old)
                            (embedding_model_id old) (embedding_dim old) (qdrant_id old)
                            (created_at old) (Some (db_now env))]> tbl
  end.

Fixpoint record_all (tbl : gmap json EmbeddingRow) (idx : nat)
    (embeddings : list (string * list Q)) : gmap json EmbeddingRow :=
  match embeddings with
  | [] => tbl
  | kv :: rest => record_all (record_embedding tbl idx (fst kv)) (S idx) rest
  end.

(** The rows are committed, then the points are upserted. *)
Definition store_embeddings (embeddings : list (string * list Q))
    (st : Rel * VectorIndex) : option Failure * (Rel * VectorIndex) :=
  let (rel, ix) := st in
  if sql_ok env then
    let rel' := mkRel (rel_patents rel) (record_all (rel_embeddings rel) 0 embeddings) in
    if index_up env
    then (None, (rel', mkIndex (collection ix) (upsert (service_points embeddings) (points ix))))
    else (Some VectorIndexUnavailable, (rel', ix))
  else (Some SqlError, st).

End EmbeddingService.

(** *** [QdrantManager.populate_qdrant] *)

(** [{"patent_id": patent_id, **metadata}]. *)
Fixpoint dict_set (d : list (string * json)) (k : string) (v : json) : list (string * json) :=
  match d with
  | [] => [(k, v)]
  | (k', v') :: rest =>
      if String.eqb k' k then (k, v) :: rest else (k', v') :: dict_set rest k v
  end.

Definition dict_update (d extra : list (string * json)) : list (string * json) :=
  foldl (fun acc kv => dict_set acc (fst kv) (snd kv)) d extra.

(** The points it prepares from the rows [load_embeddings_from_db]
    returned: [id=idx] from [enumerate(embeddings)]. *)
Definition populate_points (embeddings : list (json * list Q * list (string * json)))
  : list PointStruct :=
  imap (fun idx row =>
          mkPointStruct (Z.of_nat idx) (snd (fst row))
            (dict_update [("patent_id"%string, fst (fst row))] (snd row)))
       embeddings.

(** The upload loop: a batch whose upsert raises is logged and left
    out.  [batch_ok k] says whether the index accepts the [k]-th batch. *)
Fixpoint upload (batch_ok : nat -> bool) (k : nat) (bs : list (list PointStruct))
    (uploaded : Z) (ix : gmap Z Point) : Z * gmap Z Point :=
  match bs with
  | [] => (uploaded, ix)
  | batch :: rest =>
      if batch_ok k
      then upload batch_ok (S k) rest (uploaded + Z.of_nat (length batch)) (upsert batch ix)
      else upload batch_ok (S k) rest uploaded ix
  end.

Definition populate_qdrant (batch_ok : nat -> bool)
    (embeddings : list (json * list Q * list (string * json))) (batch_size : Z)
    (ix : VectorIndex) : Failure + Z * VectorIndex :=
  match embeddings with
  | [] => inr (0, ix)
  | _ :: _ =>
      match batches batch_size (populate_points embeddings) with
      | None => inl ValueError
      | Some bs =>
          let (uploaded, pts) := upload batch_ok 0 bs 0 (points ix) in
          inr (uploaded, mkIndex (collection ix) pts)
      end
  end.

End Embed.

(* ===================================================================== *)
(** ** [NoveltyScorer]: the features of a patent and its score *)
(* ===================================================================== *)

Module Novelty.
Import Json Db Embed.

(** The [features] dict. *)
Record Features : Type := mkFeatures {
  embedding_distance : Q;
  days_since_filing : Z;
  num_citations : Z;
  num_cpcs : Z;
  is_recent : Z
}.

(** What [date - None] raises. *)
Inductive Error : Type :=
| TypeError.

(** [compute_features]: [None] is the empty dict, returned for a
    patent with no row in [embeddings]; [today] is the day of
    [datetime.now().date()], and the day of a stored date is
    [date_of].  The distance to the nearest neighbours is the
    constant of the source. *)
Definition compute_features (today : Z) (rel : Rel) (patent_id : json)
  : Error + option Features :=
  match rel_embeddings rel !! patent_id with
  | None => inr None
  | Some _ =>
      let nearest_distance := (1 # 2)%Q in
      match rel_patents rel !! patent_id with
      | None => inr (Some (mkFeatures nearest_distance 0 0 1 1))
      | Some row =>
          match filing_date row with
          | None => inl TypeError
          | Some filed =>
              let days_since_filing := today - Client.date_of filed in
              inr (Some (mkFeatures nearest_distance days_since_filing
                           (Db.num_citations row)
                           (match cpc_codes row with
                            | [] => 1
                            | codes => Z.of_nat (length codes)
                            end)
                           (if days_since_filing <? 30 then 1 else 0)))
          end
      end
  end.

(** [max(a, b)] and [min(a, b)] of Python: the first argument unless
    the second is greater, respectively smaller. *)
Definition py_max (a b : Q) : Q := if Qlt_le_dec a b then b else a.
Definition py_min (a b : Q) : Q := if Qlt_le_dec b a then b else a.

(** The score of a patent that has features. *)
Definition score_of (features : Features) : Q :=
  let embedding_score := (embedding_distance features * 30)%Q in
  let recency_score := inject_Z (is_recent features * 20) in
  let cpc_score := inject_Z (Z.min (num_cpcs features * 10) 30) in
  let score := (embedding_score + recency_score + cpc_score)%Q in
  py_min (py_max score 0) 100.

(** The loop of [score_patents] over [patent_ids]; [today n] is the
    day at the [n]-th patent. *)
Fixpoint score_loop (today : nat -> Z) (rel : Rel) (n : nat) (patent_ids : list json)
    (scores : gmap json Q) : Error + gmap json Q :=
  match patent_ids with
  | [] => inr scores
  | patent_id :: rest =>
      match compute_features (today n) rel patent_id with
      | inl e => inl e
      | inr None => score_loop today rel (S n) rest (<[patent_id := 50%Q]> scores)
      | inr (Some features) =>
          score_loop today rel (S n) rest (<[patent_id := score_of features]> scores)
      end
  end.

Definition score_patents (today : nat -> Z) (rel : Rel) (patent_ids : list json)
  : Error + gmap json Q :=
  score_loop today rel 0 patent_ids ∅.

End Novelty.

(* ===================================================================== *)
(** ** A runtime and an engine to evaluate examples with *)
(* ===================================================================== *)

Module Examples.
Import Json Db Loader.

Definition quote : string := String (Ascii.ascii_of_nat 34) EmptyString.

Definition decimal (n : Z) : string := NilZero.string_of_int (Z.to_int n).

Definition join (sep : string) (parts : list string) : string :=
  match parts with
  | [] => EmptyString
  | x :: rest => fold_left (fun acc y => acc ++ sep ++ y)%string rest x
  end.

(** [json.dumps] with its default separators, for strings that need no
    escape. *)
Fixpoint dumps (v : json) : string :=
  match v with
  | JNull => "null"
  | JBool true => "true"
  | JBool false => "false"
  | JNum n => decimal n
  | JStr s => quote ++ s ++ quote
  | JList items => "[" ++ join ", " (List.map dumps items) ++ "]"
  | JObj fields =>
      "{" ++ join ", " (List.map (fun kv => quote ++ fst kv ++ quote ++ ": " ++ dumps (snd kv))
                          fields) ++ "}"
  end%string.

(** [str()], exact on [None], booleans, integers and strings. *)
Definition str (v : json) : string :=
  match v with
  | JNull => "None"
  | JBool true => "True"
  | JBool false => "False"
  | JNum n => decimal n
  | JStr s => s
  | _ => dumps v
  end%string.

Definition runtime : Runtime := mkRuntime str dumps.

(** Dates given as day numbers. *)
Definition day_number (v : json) : option Q :=
  match v with
  | JNum n => Some (inject_Z (n * 86400))
  | _ => None
  end.

(** An engine that accepts every statement. *)
Definition accepting (strict : bool) : Engine :=
  mkEngine (fun _ _ => false) strict day_number (fun _ => None).

(** An engine that rejects the patent row whose title is [NULL], as a
    [NOT NULL] constraint on [title] would. *)
Definition title_required (strict : bool) : Engine :=
  mkEngine (fun _ st => match st with
                        | UpsertPatent _ _ _ _ JNull _ _ _ _ _ _ => true
                        | _ => false
                        end)
           strict day_number (fun _ => None).

Definition patent (id ttl : string) : list (string * json) :=
  [("patent_id", JStr id); ("patent_title", JStr ttl)]%string.

End Examples.

(* ===================================================================== *)
(** ** Properties of the loader *)
(* ===================================================================== *)

Module LoaderProps.
Import Json Db Loader.

(** The outcomes of the records of a batch, in order, as the loop
    meets them. *)
Fixpoint outcomes (rt : Runtime) (eng : Engine) (patents_data : list (list (string * json)))
    (t : Txn) : list Outcome :=
  match patents_data with
  | [] => []
  | patent :: rest =>
      let (t', o) := load_record rt eng patent t in
      o :: outcomes rt eng rest t'
  end.

Definition completed (o : Outcome) : bool :=
  match o with Completed => true | _ => false end.

Definition raised (o : Outcome) : bool :=
  match o with Raised _ => true | _ => false end.

(** A record the loader keeps: its [patent_id] is present and truthy. *)
Definition has_patent_id (patent : list (string * json)) : bool :=
  truthy (get patent "patent_id").

(** The row of [pid], when it satisfies [P]. *)
Definition row_inv (pid : json) (P : PatentRow -> Prop) (s : Store) : Prop :=
  exists row, patents s !! pid = Some row /\ P row.

(** A statement that keeps [P] on the row of [pid]. *)
Definition stmt_keeps (pid : json) (P : PatentRow -> Prop) (st : Stmt) : Prop :=
  match st with
  | UpsertPatent id _ _ _ _ abs ncl _ _ _ raw =>
      id = pid -> forall now old, P old -> P (merge_row now old abs ncl raw)
  | _ => True
  end.

Section Facts.
Variable rt : Runtime.
Variable eng : Engine.

Lemma execute_frame t st :
  base (fst (execute eng t st)) = base t /\
  started (fst (execute eng t st)) = started t.
Proof.
  unfold execute.
  destruct (strict eng && aborted t); [now split |].
  destruct (rejects eng (work t) st); now split.
Qed.

Lemma execute_ok t st t' :
  execute eng t st = (t', None) ->
  aborted t' = aborted t /\ work t' = apply_stmt eng (started t) (work t) st.
Proof.
  unfold execute.
  destruct (strict eng && aborted t); [discriminate |].
  destruct (rejects eng (work t) st); [discriminate |].
  intros [= <-]. now split.
Qed.

Lemma apply_keeps pid P now s st :
  stmt_keeps pid P st -> row_inv pid P s -> row_inv pid P (apply_stmt eng now s st).
Proof.
  intros Hk (row & Hrow & HP). unfold row_inv.
  destruct st; simpl; try (exists row; now split).
  unfold upsert_patent. simpl in Hk.
  destruct (decide (patent_id = pid)) as [-> | Hne].
  - rewrite Hrow, lookup_insert_eq. eexists. split; [reflexivity |]. now apply Hk.
  - destruct (patents s !! patent_id); rewrite lookup_insert_ne by exact Hne;
      exists row; now split.
Qed.

Lemma execute_keeps pid P t st :
  stmt_keeps pid P st -> row_inv pid P (work t) ->
  row_inv pid P (work (fst (execute eng t st))).
Proof.
  intros Hk Hinv. unfold execute.
  destruct (strict eng && aborted t); [exact Hinv |].
  destruct (rejects eng (work t) st); [exact Hinv |].
  simpl. now apply apply_keeps.
Qed.

Lemma load_assignees_frame pid P patent_id l : forall idx t,
  let t' := fst (load_assignees rt eng patent_id idx l t) in
  base t' = base t /\ started t' = started t /\
  (row_inv pid P (work t) -> row_inv pid P (work t')).
Proof.
  induction l as [| a rest IH]; intros idx t; simpl; [now repeat split |].
  destruct (truthy a); simpl; [| apply IH].
  destruct a; try now repeat split.
  destruct (truthy (get fields "assignee_id")); simpl; [| apply IH].
  pose proof (execute_frame t (UpsertAssignee (get fields "assignee_id")
    (get fields "assignee_name") (get fields "assignee_type") (json_dumps rt (JObj fields))))
    as [Hb1 Hs1].
  pose proof (execute_keeps pid P t (UpsertAssignee (get fields "assignee_id")
    (get fields "assignee_name") (get fields "assignee_type") (json_dumps rt (JObj fields))) I)
    as Hk1.
  destruct (execute eng t _) as [t1 [e |]]; simpl in *; [now repeat split |].
  pose proof (execute_frame t1 (LinkAssignee patent_id (get fields "assignee_id") idx))
    as [Hb2 Hs2].
  pose proof (execute_keeps pid P t1 (LinkAssignee patent_id (get fields "assignee_id") idx) I)
    as Hk2.
  destruct (execute eng t1 _) as [t2 [e |]]; simpl in *.
  - repeat split; [congruence | congruence | auto].
  - destruct (IH (idx + 1) t2) as (Hb3 & Hs3 & Hk3).
    repeat split; [congruence | congruence | auto].
Qed.

Lemma load_inventors_frame pid P patent_id l : forall idx t,
  let t' := fst (load_inventors rt eng patent_id idx l t) in
  base t' = base t /\ started t' = started t /\
  (row_inv pid P (work t) -> row_inv pid P (work t')).
Proof.
  induction l as [| a rest IH]; intros idx t; simpl; [now repeat split |].
  destruct (truthy a); simpl; [| apply IH].
  destruct a; try now repeat split.
  destruct (truthy (get fields "inventor_id")); simpl; [| apply IH].
  pose proof (execute_frame t (UpsertInventor (get fields "inventor_id")
    (get fields "inventor_name") (json_dumps rt (JObj fields)))) as [Hb1 Hs1].
  pose proof (execute_keeps pid P t (UpsertInventor (get fields "inventor_id")
    (get fields "inventor_name") (json_dumps rt (JObj fields))) I) as Hk1.
  destruct (execute eng t _) as [t1 [e |]]; simpl in *; [now repeat split |].
  pose proof (execute_frame t1 (LinkInventor patent_id (get fields "inventor_id") idx))
    as [Hb2 Hs2].
  pose proof (execute_keeps pid P t1 (LinkInventor patent_id (get fields "inventor_id") idx) I)
    as Hk2.
  destruct (execute eng t1 _) as [t2 [e |]]; simpl in *.
  - repeat split; [congruence | congruence | auto].
  - destruct (IH (idx + 1) t2) as (Hb3 & Hs3 & Hk3).
    repeat split; [congruence | congruence | auto].
Qed.

(** One record: the transaction keeps its base and its clock, and a
    property of the row of [pid] that the record's own upsert keeps. *)
Lemma load_record_frame pid P patent t :
  let t' := fst (load_record rt eng patent t) in
  base t' = base t /\ started t' = started t /\
  (stmt_keeps pid P (patent_stmt rt patent) ->
   row_inv pid P (work t) -> row_inv pid P (work t')).
Proof.
  unfold load_record.
  destruct (truthy (get patent "patent_id")); simpl; [| now repeat split].
  pose proof (execute_frame t (patent_stmt rt patent)) as [Hb1 Hs1].
  pose proof (execute_keeps pid P t (patent_stmt rt patent)) as Hk1.
  destruct (execute eng t _) as [t1 [e |]]; simpl in *; [now repeat split |].
  pose proof (load_assignees_frame pid P (get patent "patent_id")
                (as_list patent "assignees") 0 t1) as (Hb2 & Hs2 & Hk2).
  destruct (load_assignees _ _ _ _ _ t1) as [t2 [e |]]; simpl in *.
  - repeat split; [congruence | congruence | auto].
  - pose proof (load_inventors_frame pid P (get patent "patent_id")
                  (as_list patent "inventors") 0 t2) as (Hb3 & Hs3 & Hk3).
    destruct (load_inventors _ _ _ _ _ t2) as [t3 [e |]]; simpl in *;
      (repeat split; [congruence | congruence | auto]).
Qed.

Lemma load_loop_frame pid P batch : forall t st,
  let t' := fst (load_loop rt eng batch t st) in
  base t' = base t /\ started t' = started t /\
  ((forall q, In q batch -> stmt_keeps pid P (patent_stmt rt q)) ->
   row_inv pid P (work t) -> row_inv pid P (work t')).
Proof.
  induction batch as [| p rest IH]; intros t st; simpl; [now repeat split |].
  pose proof (load_record_frame pid P p t) as (Hb1 & Hs1 & Hk1).
  destruct (load_record rt eng p t) as [t1 o]; simpl in *.
  destruct (IH t1 (count st o)) as (Hb2 & Hs2 & Hk2).
  repeat split; [congruence | congruence |].
  intros Hall Hinv. apply Hk2; [intros q Hq; apply Hall; now right |].
  apply Hk1; [apply Hall; now left | exact Hinv].
Qed.

Lemma count_updated st o : updated (count st o) = updated st.
Proof. now destruct o. Qed.

Lemma count_errors_le st o : errors st <= errors (count st o).
Proof. destruct o; simpl; lia. Qed.

(** What the loop adds to the counters. *)
Lemma load_loop_stats batch : forall t st,
  let st' := snd (load_loop rt eng batch t st) in
  updated st' = updated st /\
  inserted st' = inserted st + Z.of_nat (length (List.filter completed (outcomes rt eng batch t))) /\
  errors st' = errors st + Z.of_nat (length (List.filter raised (outcomes rt eng batch t))).
Proof.
  induction batch as [| p rest IH]; intros t st; simpl; [repeat split; lia |].
  destruct (load_record rt eng p t) as [t1 o]; simpl.
  destruct (IH t1 (count st o)) as (Hu & Hi & He).
  rewrite Hu, Hi, He. destruct o; simpl; repeat split; lia.
Qed.

Lemma load_loop_app a b : forall t st,
  load_loop rt eng (a ++ b) t st =
  load_loop rt eng b (fst (load_loop rt eng a t st)) (snd (load_loop rt eng a t st)).
Proof.
  induction a as [| p rest IH]; intros t st; simpl; [reflexivity |].
  destruct (load_record rt eng p t) as [t1 o]. apply IH.
Qed.

Lemma load_loop_errors_le batch : forall t st,
  errors st <= errors (snd (load_loop rt eng batch t st)).
Proof.
  intros t st. destruct (load_loop_stats batch t st) as (_ & _ & He).
  simpl in He. lia.
Qed.

(** A record without a usable [patent_id] leaves the transaction and
    the counters as they were. *)
Lemma load_record_skips patent t :
  has_patent_id patent = false -> load_record rt eng patent t = (t, Skipped).
Proof. unfold has_patent_id, load_record. now intros ->. Qed.

Lemma load_loop_filter batch : forall t st,
  load_loop rt eng (List.filter has_patent_id batch) t st = load_loop rt eng batch t st.
Proof.
  induction batch as [| p rest IH]; intros t st; simpl; [reflexivity |].
  destruct (has_patent_id p) eqn:Hid; simpl.
  - destruct (load_record rt eng p t) as [t1 o]. apply IH.
  - rewrite (load_record_skips p t Hid). simpl. apply IH.
Qed.

Lemma outcomes_filter batch : forall t,
  List.filter (fun o => completed o || raised o) (outcomes rt eng batch t) =
  outcomes rt eng (List.filter has_patent_id batch) t.
Proof.
  induction batch as [| p rest IH]; intros t; simpl; [reflexivity |].
  destruct (has_patent_id p) eqn:Hid; simpl.
  - destruct (load_record rt eng p t) as [t1 o] eqn:Hrec.
    assert (completed o || raised o = true) as Ho.
    { unfold load_record in Hrec. unfold has_patent_id in Hid. rewrite Hid in Hrec.
      simpl in Hrec.
      destruct (execute eng t _) as [t1' [e |]]; [now inversion Hrec |].
      destruct (load_assignees _ _ _ _ _ t1') as [t2 [e |]]; [now inversion Hrec |].
      destruct (load_inventors _ _ _ _ _ t2) as [t3 [e |]]; now inversion Hrec. }
    cbn [List.filter]. rewrite Ho. now rewrite IH.
  - rewrite (load_record_skips p t Hid). simpl. apply IH.
Qed.

Lemma outcomes_length batch : forall t, length (outcomes rt eng batch t) = length batch.
Proof.
  induction batch as [| p rest IH]; intros t; simpl; [reflexivity |].
  destruct (load_record rt eng p t) as [t1 o]. simpl. now rewrite IH.
Qed.

Lemma filter_completed_raised (l : list Outcome) :
  (length (List.filter (fun o => completed o || raised o) l) =
   length (List.filter completed l) + length (List.filter raised l))%nat.
Proof. induction l as [| [] rest IH]; simpl; lia. Qed.

Lemma load_assignees_aborted patent_id l : forall idx t t',
  load_assignees rt eng patent_id idx l t = (t', None) -> aborted t' = aborted t.
Proof.
  induction l as [| a rest IH]; intros idx t t'; simpl; [now intros [= <-] |].
  destruct (truthy a); simpl; [| apply IH].
  destruct a; try discriminate.
  destruct (truthy (get fields "assignee_id")); simpl; [| apply IH].
  destruct (execute eng t _) as [t1 [e |]] eqn:E1; [discriminate |].
  destruct (execute eng t1 _) as [t2 [e |]] eqn:E2; [discriminate |].
  intros H. apply IH in H. apply execute_ok in E1, E2. destruct E1, E2. congruence.
Qed.

Lemma load_inventors_aborted patent_id l : forall idx t t',
  load_inventors rt eng patent_id idx l t = (t', None) -> aborted t' = aborted t.
Proof.
  induction l as [| a rest IH]; intros idx t t'; simpl; [now intros [= <-] |].
  destruct (truthy a); simpl; [| apply IH].
  destruct a; try discriminate.
  destruct (truthy (get fields "inventor_id")); simpl; [| apply IH].
  destruct (execute eng t _) as [t1 [e |]] eqn:E1; [discriminate |].
  destruct (execute eng t1 _) as [t2 [e |]] eqn:E2; [discriminate |].
  intros H. apply IH in H. apply execute_ok in E1, E2. destruct E1, E2. congruence.
Qed.

(** A record that raises nothing leaves the transaction usable. *)
Lemma load_record_aborted patent t t' o :
  load_record rt eng patent t = (t', o) -> raised o = false -> aborted t' = aborted t.
Proof.
  unfold load_record.
  destruct (truthy (get patent "patent_id")); simpl; [| now intros [= <- <-]].
  destruct (execute eng t _) as [t1 [e |]] eqn:E1; [now intros [= <- <-] |].
  destruct (load_assignees _ _ _ _ _ t1) as [t2 [e |]] eqn:E2; [now intros [= <- <-] |].
  destruct (load_inventors _ _ _ _ _ t2) as [t3 [e |]] eqn:E3; [now intros [= <- <-] |].
  intros [= <- <-] _.
  apply execute_ok in E1. apply load_assignees_aborted in E2.
  apply load_inventors_aborted in E3. destruct E1. congruence.
Qed.

Lemma load_loop_aborted batch : forall t st,
  errors (snd (load_loop rt eng batch t st)) = errors st ->
  aborted (fst (load_loop rt eng batch t st)) = aborted t.
Proof.
  induction batch as [| p rest IH]; intros t st; simpl; [reflexivity |].
  destruct (load_record rt eng p t) as [t1 o] eqn:Hrec. intros He.
  pose proof (load_loop_errors_le rest t1 (count st o)) as Hle.
  destruct (raised o) eqn:Hr.
  - destruct o; try discriminate. simpl in He, Hle. lia.
  - rewrite IH.
    + now apply (load_record_aborted p t t1 o).
    + pose proof (count_errors_le st o). lia.
Qed.

(** A record that raises nothing and meets the row of its patent
    leaves the merged row, whatever its assignees and inventors. *)
Lemma load_record_updates (P : PatentRow -> Prop) patent t t' o old :
  load_record rt eng patent t = (t', o) -> raised o = false ->
  has_patent_id patent = true ->
  patents (work t) !! get patent "patent_id" = Some old ->
  P (merge_row (started t) old (get patent "patent_abstract")
       (get patent "patent_num_claims") (json_dumps rt (JObj patent))) ->
  row_inv (get patent "patent_id") P (work t').
Proof.
  unfold load_record, has_patent_id. intros Hrec Hr Hid Hold HP.
  rewrite Hid in Hrec. simpl in Hrec.
  destruct (execute eng t _) as [t1 [e |]] eqn:E1;
    [injection Hrec as <- <-; discriminate |].
  apply execute_ok in E1. destruct E1 as [_ Hw1].
  assert (row_inv (get patent "patent_id") P (work t1)) as H1.
  { rewrite Hw1. unfold patent_stmt, row_inv. simpl. unfold upsert_patent.
    rewrite Hold, lookup_insert_eq. eexists. split; [reflexivity | exact HP]. }
  pose proof (load_assignees_frame (get patent "patent_id") P (get patent "patent_id")
                (as_list patent "assignees") 0 t1) as (_ & _ & Hk2).
  destruct (load_assignees _ _ _ _ _ t1) as [t2 [e |]];
    [injection Hrec as <- <-; discriminate |].
  pose proof (load_inventors_frame (get patent "patent_id") P (get patent "patent_id")
                (as_list patent "inventors") 0 t2) as (_ & _ & Hk3).
  destruct (load_inventors _ _ _ _ _ t2) as [t3 [e |]];
    injection Hrec as <- <-; [discriminate |].
  simpl in *. auto.
Qed.

Lemma load_loop_error_list batch : forall t st,
  length (error_list (snd (load_loop rt eng batch t st))) =
  (length (error_list st) + length (List.filter raised (outcomes rt eng batch t)))%nat.
Proof.
  induction batch as [| p rest IH]; intros t st; simpl; [lia |].
  destruct (load_record rt eng p t) as [t1 o]; simpl.
  rewrite IH. destruct o; simpl; rewrite ?length_app; simpl; lia.
Qed.

(** [conn.execute] raises database errors only. *)
Lemma execute_raises t st t' e :
  execute eng t st = (t', Some e) -> e = StatementError st \/ e = InFailedSqlTransaction st.
Proof.
  unfold execute.
  destruct (strict eng && aborted t); [intros [= <- <-]; now right |].
  destruct (rejects eng (work t) st); [intros [= <- <-]; now left | discriminate].
Qed.

(** No record removes a patent row from the transaction. *)
Lemma load_record_keeps_rows patent t pid :
  is_Some (patents (work t) !! pid) ->
  is_Some (patents (work (fst (load_record rt eng patent t))) !! pid).
Proof.
  intros [row Hrow].
  destruct (load_record_frame pid (fun _ => True) patent t) as (_ & _ & Hk).
  destruct Hk as (row' & Hrow' & _).
  - now destruct (patent_stmt rt patent).
  - exists row. now split.
  - eauto.
Qed.

(** Once the patent row of a record is written it stays in the
    transaction, however the rest of the record ends. *)
Lemma load_record_row_written patent t t1 :
  has_patent_id patent = true ->
  execute eng t (patent_stmt rt patent) = (t1, None) ->
  is_Some (patents (work (fst (load_record rt eng patent t))) !! get patent "patent_id").
Proof.
  unfold load_record, has_patent_id. intros -> E1. simpl. rewrite E1.
  apply execute_ok in E1. destruct E1 as [_ Hw1].
  assert (row_inv (get patent "patent_id") (fun _ => True) (work t1)) as H1.
  { rewrite Hw1. unfold patent_stmt, row_inv. simpl. unfold upsert_patent.
    destruct (patents (work t) !! get patent "patent_id");
      rewrite lookup_insert_eq; eauto. }
  pose proof (load_assignees_frame (get patent "patent_id") (fun _ => True)
                (get patent "patent_id") (as_list patent "assignees") 0 t1) as (_ & _ & Hk2).
  destruct (load_assignees _ _ _ _ _ t1) as [t2 [e |]]; simpl in *.
  { destruct (Hk2 H1) as (row & Hrow & _). eauto. }
  pose proof (load_inventors_frame (get patent "patent_id") (fun _ => True)
                (get patent "patent_id") (as_list patent "inventors") 0 t2) as (_ & _ & Hk3).
  destruct (load_inventors _ _ _ _ _ t2) as [t3 [e |]]; simpl in *;
    destruct (Hk3 (Hk2 H1)) as (row & Hrow & _); eauto.
Qed.

(** With an engine that rejects nothing a usable transaction stays
    usable. *)
Definition accepts_all (e : Engine) : Prop := forall s st, rejects e s st = false.

Lemma execute_accepted t st :
  accepts_all eng -> aborted t = false ->
  execute eng t st = (mkTxn (base t) (apply_stmt eng (started t) (work t) st) (started t) false,
                      None).
Proof.
  intros Hacc Hab. unfold execute. now rewrite Hab, andb_false_r, Hacc.
Qed.

Lemma load_assignees_accepted patent_id l : forall idx t,
  accepts_all eng -> aborted t = false ->
  aborted (fst (load_assignees rt eng patent_id idx l t)) = false.
Proof.
  induction l as [| a rest IH]; intros idx t Hacc Hab; simpl; [exact Hab |].
  destruct (truthy a); simpl; [| now apply IH].
  destruct a; try exact Hab.
  destruct (truthy (get fields "assignee_id")); simpl; [| now apply IH].
  rewrite execute_accepted by assumption.
  rewrite execute_accepted by (assumption || reflexivity).
  now apply IH.
Qed.

Lemma load_inventors_accepted patent_id l : forall idx t,
  accepts_all eng -> aborted t = false ->
  aborted (fst (load_inventors rt eng patent_id idx l t)) = false.
Proof.
  induction l as [| a rest IH]; intros idx t Hacc Hab; simpl; [exact Hab |].
  destruct (truthy a); simpl; [| now apply IH].
  destruct a; try exact Hab.
  destruct (truthy (get fields "inventor_id")); simpl; [| now apply IH].
  rewrite execute_accepted by assumption.
  rewrite execute_accepted by (assumption || reflexivity).
  now apply IH.
Qed.

(** With such an engine a record with a [patent_id] always writes its
    patent row, even if it raises later on. *)
Lemma load_record_accepted (P : PatentRow -> Prop) patent t old :
  accepts_all eng -> aborted t = false ->
  has_patent_id patent = true ->
  patents (work t) !! get patent "patent_id" = Some old ->
  P (merge_row (started t) old (get patent "patent_abstract")
       (get patent "patent_num_claims") (json_dumps rt (JObj patent))) ->
  aborted (fst (load_record rt eng patent t)) = false /\
  row_inv (get patent "patent_id") P (work (fst (load_record rt eng patent t))).
Proof.
  unfold load_record, has_patent_id. intros Hacc Hab Hid Hold HP.
  rewrite Hid. simpl. rewrite execute_accepted by assumption.
  set (t1 := mkTxn (base t) (apply_stmt eng (started t) (work t) (patent_stmt rt patent))
               (started t) false).
  assert (row_inv (get patent "patent_id") P (work t1)) as H1.
  { unfold t1, patent_stmt, row_inv. simpl. unfold upsert_patent.
    rewrite Hold, lookup_insert_eq. eexists. split; [reflexivity | exact HP]. }
  pose proof (load_assignees_frame (get patent "patent_id") P (get patent "patent_id")
                (as_list patent "assignees") 0 t1) as (_ & _ & Hk2).
  pose proof (load_assignees_accepted (get patent "patent_id")
                (as_list patent "assignees") 0 t1 Hacc eq_refl) as Ha2.
  destruct (load_assignees _ _ _ _ _ t1) as [t2 [e |]]; simpl in *; [auto |].
  pose proof (load_inventors_frame (get patent "patent_id") P (get patent "patent_id")
                (as_list patent "inventors") 0 t2) as (_ & _ & Hk3).
  pose proof (load_inventors_accepted (get patent "patent_id")
                (as_list patent "inventors") 0 t2 Hacc Ha2) as Ha3.
  destruct (load_inventors _ _ _ _ _ t2) as [t3 [e |]]; simpl in *; auto.
Qed.

Lemma load_record_stays_usable patent t :
  accepts_all eng -> aborted t = false ->
  aborted (fst (load_record rt eng patent t)) = false.
Proof.
  unfold load_record. intros Hacc Hab.
  destruct (truthy (get patent "patent_id")); simpl; [| exact Hab].
  rewrite execute_accepted by assumption.
  set (t1 := mkTxn _ _ _ false).
  pose proof (load_assignees_accepted (get patent "patent_id")
                (as_list patent "assignees") 0 t1 Hacc eq_refl) as Ha2.
  destruct (load_assignees _ _ _ _ _ t1) as [t2 [e |]]; simpl in *; [exact Ha2 |].
  pose proof (load_inventors_accepted (get patent "patent_id")
                (as_list patent "inventors") 0 t2 Hacc Ha2) as Ha3.
  destruct (load_inventors _ _ _ _ _ t2) as [t3 [e |]]; simpl in *; exact Ha3.
Qed.

Lemma load_loop_stays_usable batch : forall t st,
  accepts_all eng -> aborted t = false ->
  aborted (fst (load_loop rt eng batch t st)) = false.
Proof.
  induction batch as [| p rest IH]; intros t st Hacc Hab; simpl; [exact Hab |].
  pose proof (load_record_stays_usable p t Hacc Hab) as H1.
  destruct (load_record rt eng p t) as [t1 o]. now apply IH.
Qed.

(** With a strict engine a batch in which a statement was rejected
    commits nothing. *)
Lemma aborted_batch_commits_nothing now s batch :
  strict eng = true ->
  aborted (fst (load_loop rt eng batch (begin now s) stats0)) = true ->
  snd (load_patents rt eng now s batch) = s.
Proof.
  intros Hstrict Hab. unfold load_patents.
  pose proof (load_loop_frame JNull (fun _ => True) batch (begin now s) stats0) as (Hb & _ & _).
  destruct (load_loop rt eng batch (begin now s) stats0) as [t st]. simpl in *.
  unfold commit. now rewrite Hstrict, Hab, Hb.
Qed.

End Facts.

End LoaderProps.

(* ===================================================================== *)
(** ** The loader against the specification *)
(* ===================================================================== *)

Module LoaderClaims.
Import Json Db Loader LoaderProps Examples.

(** C9, as stated, fails: no function of the returned statistics gives
    the number of records dropped for lack of a [patent_id].  A batch of
    three records of which one has no [patent_id] and the batch of the
    two others return the same statistics, [inserted=2, updated=0,
    errors=0] and an empty [error_list]. *)
Lemma dropped_records_leave_no_count :
  ~ exists skipped : LoadStats -> Z,
      forall batch : list (list (string * json)),
        skipped (fst (load_patents runtime (accepting true) 0 empty_store batch)) =
        Z.of_nat (length (List.filter (fun p => negb (has_patent_id p)) batch)).
Proof.
  intros [skipped H].
  pose proof (H [patent "A" "a"; [("patent_title"%string, JStr "no id")]; patent "B" "b"]) as H3.
  pose proof (H [patent "A" "a"; patent "B" "b"]) as H2.
  vm_compute in H3, H2. congruence.
Qed.

(** C9 (amended).  A record without a truthy [patent_id] is dropped
    without a write and without failing the batch, and nothing counts
    it: the load returns the statistics and the store it returns for
    the batch without such records, every kept record is counted once,
    as inserted or as an error, and [updated] stays 0. *)
Theorem records_without_id_are_dropped_uncounted
    (rt : Runtime) (eng : Engine) (now : Q) (s : Store) (batch : list (list (string * json))) :
  load_patents rt eng now s batch =
    load_patents rt eng now s (List.filter has_patent_id batch) /\
  inserted (fst (load_patents rt eng now s batch)) +
    errors (fst (load_patents rt eng now s batch)) =
    Z.of_nat (length (List.filter has_patent_id batch)) /\
  updated (fst (load_patents rt eng now s batch)) = 0.
Proof.
  unfold load_patents. rewrite load_loop_filter.
  pose proof (load_loop_stats rt eng batch (begin now s) stats0) as (Hu & Hi & He).
  destruct (load_loop rt eng batch (begin now s) stats0) as [t st]. simpl in *.
  split; [reflexivity |]. split; [| exact Hu].
  rewrite Hi, He, <- (outcomes_length rt eng (List.filter has_patent_id batch) (begin now s)),
    <- (outcomes_filter rt eng batch (begin now s)), filter_completed_raised.
  lia.
Qed.

(** C10.  [updated] is 0 in the statistics of every load; [inserted]
    is the number of records whose writes completed without an
    exception; and a record that completes on a patent row that already
    existed (the row keeps its [ingested_at] and gets
    [last_updated_at = NOW()], a conflict-update) still adds one to
    [inserted] and nothing to [updated]. *)
Theorem updated_stays_zero_and_completion_counts_as_inserted
    (rt : Runtime) (eng : Engine) (now : Q) (s : Store) (batch : list (list (string * json))) :
  updated (fst (load_patents rt eng now s batch)) = 0 /\
  inserted (fst (load_patents rt eng now s batch)) =
    Z.of_nat (length (List.filter completed (outcomes rt eng batch (begin now s)))) /\
  (forall patent t t' old st,
      load_record rt eng patent t = (t', Completed) ->
      patents (work t) !! get patent "patent_id" = Some old ->
      row_inv (get patent "patent_id")
        (fun row => ingested_at row = ingested_at old /\
                    last_updated_at row = Some (started t)) (work t') /\
      inserted (count st Completed) = inserted st + 1 /\
      updated (count st Completed) = updated st).
Proof.
  unfold load_patents.
  pose proof (load_loop_stats rt eng batch (begin now s) stats0) as (Hu & Hi & _).
  destruct (load_loop rt eng batch (begin now s) stats0) as [t st]. simpl in *.
  split; [exact Hu |]. split; [exact Hi |].
  intros patent t0 t' old st0 Hrec Hold. split; [| now split].
  assert (has_patent_id patent = true) as Hid.
  { destruct (has_patent_id patent) eqn:E; [reflexivity |].
    rewrite (load_record_skips rt eng patent t0 E) in Hrec. discriminate. }
  apply (load_record_updates rt eng _ patent t0 t' Completed old Hrec eq_refl Hid Hold).
  now split.
Qed.

(** A stored patent, loaded again with a conflict-update. *)
Lemma updated_stays_zero_witness :
  let rt := runtime in
  let eng := accepting true in
  let s := snd (load_patents rt eng 5 empty_store [patent "A" "a"]) in
  updated (fst (load_patents rt eng 9 s [patent "A" "b"])) = 0 /\
  inserted (fst (load_patents rt eng 9 s [patent "A" "b"])) = 1 /\
  row_inv (JStr "A")
    (fun row => ingested_at row = 5%Q /\ last_updated_at row = Some 9%Q)
    (work (fst (load_record rt eng (patent "A" "b") (begin 9 s)))).
Proof.
  intros rt eng s.
  destruct (updated_stays_zero_and_completion_counts_as_inserted rt eng 9 s [patent "A" "b"])
    as (Hu & Hi & Hrow).
  split; [exact Hu |]. split; [exact Hi |].
  destruct (Hrow (patent "A" "b") (begin 9 s)
              (fst (load_record rt eng (patent "A" "b") (begin 9 s)))
              (mkPatentRow (JStr "USA") None None (JStr "a") JNull JNull None [] 0
                 (dumps (JObj (patent "A" "a"))) 5%Q None)
              stats0) as (H & _).
  - vm_compute. reflexivity.
  - vm_compute. reflexivity.
  - exact H.
Defined.






End LoaderClaims.

(* ===================================================================== *)
(** ** Properties of the client *)
(* ===================================================================== *)

Module ClientProps.
Import Json Db World Client.
Local Open Scope world_scope.

(** An attempt fails when it raises. *)
Definition failed (o : HttpOutcome) : bool :=
  match result_of o with Err _ => true | Ok _ => false end.

(** One call of [fetch_once] among others: its arguments and what the
    process did since the previous call. *)
Record Call : Type := mkCall {
  between : world -> world;
  c_since : option Q;
  c_limit : Z;
  c_offset : Z
}.

(** The instants at which consecutive calls pass the limiter. *)
Fixpoint call_times (env : Surroundings) (self : PatentsViewClient) (calls : list Call)
    (w : world) : list Q :=
  match calls with
  | [] => []
  | c :: rest =>
      let w' := snd (fetch_once env self (c_since c) (c_limit c) (c_offset c) (between c w)) in
      last_request_time w' :: call_times env self rest w'
  end.

Section Facts.
Variable env : Surroundings.
Variable self : PatentsViewClient.

Lemma result_of_error o e :
  result_of o = Err e -> exists re, e = RequestException re.
Proof.
  destruct o as [status body | |]; simpl.
  - destruct ((400 <=? status) && (status <? 600)); [| discriminate].
    intros [= <-]. eauto.
  - intros [= <-]. eauto.
  - intros [= <-]. eauto.
Qed.

(** The limiter, for a positive rate: it returns normally, touches
    neither the requests nor the store, stamps the instant of its
    return, and that instant is at least [1/rate] after the previous
    stamp. *)
Lemma rate_limit_spec w :
  Qeq_bool (rate_limit_per_sec self) 0 = false ->
  exists w',
    _rate_limit env self w = (Ok tt, w') /\
    sent w' = sent w /\ store w' = store w /\
    last_request_time w' = clock w' /\
    (exists more, slept w' = slept w ++ more) /\
    ((0 < rate_limit_per_sec self)%Q -> (forall n, 0 <= lag env n)%Q ->
     (last_request_time w + 1 / rate_limit_per_sec self <= last_request_time w')%Q).
Proof.
  intros Hrate. unfold _rate_limit, bind, time_time, get_last_request_time,
    set_last_request_time, sleep, ret. simpl. rewrite Hrate.
  destruct (Qlt_le_dec 0 _) as [Hwait | Hwait]; simpl.
  - eexists. split; [reflexivity |]. simpl. repeat split.
    + now exists [(1 / rate_limit_per_sec self -
                    (clock w + lag env (reads w) - last_request_time w))%Q].
    + intros _ Hlag. pose proof (Hlag (S (reads w))).
      set (x := (1 / rate_limit_per_sec self)%Q) in *. lra.
  - eexists. split; [reflexivity |]. simpl. repeat split.
    + exists []. now rewrite app_nil_r.
    + intros _ Hlag. pose proof (Hlag (S (reads w))).
      set (x := (1 / rate_limit_per_sec self)%Q) in *. lra.
Qed.

(** One attempt, for a positive rate and a page size that is not 0:
    exactly one request is sent and the attempt ends as the answer
    to that request says. *)
Lemma fetch_once_spec since limit offset w :
  Qeq_bool (rate_limit_per_sec self) 0 = false -> (limit =? 0) = false ->
  exists w' req,
    fetch_once env self since limit offset w =
      (result_of (server env (length (sent w)) req), w') /\
    sent w' = sent w ++ [(clock w', req)] /\ store w' = store w /\
    (exists more, slept w' = slept w ++ more) /\
    ((0 < rate_limit_per_sec self)%Q -> (forall n, 0 <= lag env n)%Q ->
     (last_request_time w + 1 / rate_limit_per_sec self <= last_request_time w')%Q).
Proof.
  intros Hrate Hlimit.
  destruct (rate_limit_spec w Hrate) as (w1 & Hrl & Hsent & Hstore & _ & Hslept & Hgap).
  unfold fetch_once, bind. rewrite Hrl.
  destruct since as [t |]; unfold ret, time_time, http_get, lift; simpl; rewrite Hlimit;
    simpl; rewrite Hsent; do 2 eexists; (split; [reflexivity |]); simpl; auto.
Qed.

(** Whatever its arguments, a call stamps an instant at least
    [1/rate] after the previous stamp. *)
Lemma fetch_once_stamp since limit offset w :
  (0 < rate_limit_per_sec self)%Q -> (forall n, 0 <= lag env n)%Q ->
  (last_request_time w + 1 / rate_limit_per_sec self <=
   last_request_time (snd (fetch_once env self since limit offset w)))%Q.
Proof.
  intros Hpos Hlag.
  assert (Qeq_bool (rate_limit_per_sec self) 0 = false) as Hrate.
  { destruct (Qeq_bool _ 0) eqn:E; [| reflexivity].
    apply Qeq_bool_iff in E. rewrite E in Hpos. now apply Qlt_irrefl in Hpos. }
  destruct (rate_limit_spec w Hrate) as (w1 & Hrl & _ & _ & _ & _ & Hgap).
  specialize (Hgap Hpos Hlag).
  unfold fetch_once, bind. rewrite Hrl.
  destruct since as [t |]; unfold ret, time_time, http_get, lift, raise; simpl;
    destruct (limit =? 0); simpl; exact Hgap.
Qed.

(** The [i]-th call from a world passes the limiter at least
    [i+1] intervals after the stamp the world holds. *)
Lemma call_times_bound calls :
  (0 < rate_limit_per_sec self)%Q -> (forall n, 0 <= lag env n)%Q ->
  Forall (fun c => forall w, last_request_time (between c w) = last_request_time w) calls ->
  forall w (i : nat) t,
    call_times env self calls w !! i = Some t ->
    (last_request_time w + inject_Z (Z.of_nat (S i)) * (1 / rate_limit_per_sec self) <= t)%Q.
Proof.
  intros Hpos Hlag Hcalls. induction Hcalls as [| c rest Hc _ IH]; intros w i t; simpl.
  - intros H. now rewrite lookup_nil in H.
  - pose proof (fetch_once_stamp (c_since c) (c_limit c) (c_offset c) (between c w) Hpos Hlag)
      as Hgap.
    rewrite Hc in Hgap.
    set (w' := snd (fetch_once env self (c_since c) (c_limit c) (c_offset c) (between c w)))
      in *.
    destruct i as [| i]; simpl.
    + intros [= <-]. set (x := (1 / rate_limit_per_sec self)%Q) in *.
      change (inject_Z (Z.of_nat 1)) with 1%Q. clearbody x w'. lra.
    + intros H. apply IH in H.
      set (x := (1 / rate_limit_per_sec self)%Q) in *.
      assert (inject_Z (Z.of_nat (S (S i))) == inject_Z (Z.of_nat (S i)) + 1)%Q as Hq.
      { rewrite (Nat2Z.inj_succ (S i)). unfold Z.succ. now rewrite inject_Z_plus. }
      rewrite Hq. clearbody x w'. lra.
Qed.

(** With no try left the decorator is the target. *)
Lemma on_exception_last {A} n factor (target : M A) w :
  on_exception env 0 n factor target w = target w.
Proof.
  simpl. destruct (target w) as [[a | e] w']; [reflexivity |]. now destruct e.
Qed.

(** The attempts of a decorated fetch: the requests it sends, at
    most one more than the tries left; every attempt before the
    last one failed; the result is that of the last attempt, which
    failed only if no try was left; and before the retry that
    follows the [i]-th failure it slept a jittered [expo 2 (n+i)]. *)
Lemma on_exception_attempts since limit offset :
  Qeq_bool (rate_limit_per_sec self) 0 = false -> (limit =? 0) = false ->
  forall remaining n w r w',
    on_exception env remaining n 2 (fetch_once env self since limit offset) w = (r, w') ->
    exists new : list (Q * Request),
      sent w' = sent w ++ new /\
      (1 <= length new <= S remaining)%nat /\
      (forall (i : nat) a, new !! i = Some a -> (S i < length new)%nat ->
         failed (server env (length (sent w) + i) (snd a)) = true) /\
      (exists a, last new = Some a /\
         r = result_of (server env (length (sent w) + pred (length new)) (snd a)) /\
         (failed (server env (length (sent w) + pred (length new)) (snd a)) = true ->
          length new = S remaining)) /\
      (forall i : nat, (S i < length new)%nat ->
         exists k, In (jitter env k (expo 2 (n + i))) (slept w')) /\
      (exists more, slept w' = slept w ++ more) /\
      store w' = store w.
Proof.
  intros Hrate Hlimit. induction remaining as [| remaining IH]; intros n w r w' Hrun.
  - rewrite on_exception_last in Hrun.
    destruct (fetch_once_spec since limit offset w Hrate Hlimit)
      as (w1 & req & Hfetch & Hsent & Hstore & Hslept & _).
    rewrite Hfetch in Hrun. injection Hrun as <- <-.
    exists [(clock w1, req)]. simpl. rewrite Nat.add_0_r.
    split; [exact Hsent |]. split; [lia |].
    split; [intros i a _ Hi; lia |].
    split; [exists (clock w1, req); now repeat split |].
    split; [intros i Hi; lia |].
    split; [exact Hslept | exact Hstore].
  - destruct (fetch_once_spec since limit offset w Hrate Hlimit)
      as (w1 & req & Hfetch & Hsent & Hstore & Hslept & _).
    simpl in Hrun. rewrite Hfetch in Hrun.
    destruct (result_of (server env (length (sent w)) req)) as [body | e] eqn:Hres.
    + injection Hrun as <- <-.
      exists [(clock w1, req)]. simpl. rewrite Nat.add_0_r.
      split; [exact Hsent |]. split; [lia |].
      split; [intros i a _ Hi; lia |].
      split.
      { exists (clock w1, req). split; [reflexivity |]. split; [exact (eq_sym Hres) |].
        unfold failed. simpl. rewrite Hres. discriminate. }
      split; [intros i Hi; lia |].
      split; [exact Hslept | exact Hstore].
    + destruct (result_of_error _ _ Hres) as [re ->].
      unfold bind, draw_jitter, sleep in Hrun. simpl in Hrun.
      apply IH in Hrun. simpl in Hrun.
      destruct Hrun as (new & Hsent' & Hlen & Hfail & (a & Hlast & Hr & Hfull)
                        & Hwait & (more' & Hslept') & Hstore').
      rewrite Hsent in Hsent'. rewrite Hsent, length_app in Hfail, Hr, Hfull.
      simpl in Hfail, Hr, Hfull.
      assert (forall k : nat, (length (sent w) + 1 + k = length (sent w) + S k)%nat) as Hk
        by (intros; lia).
      exists ((clock w1, req) :: new).
      split; [now rewrite Hsent', <- app_assoc |].
      split; [simpl; lia |].
      split.
      { intros [| i] b; simpl.
        - intros [= <-] _. rewrite Nat.add_0_r. unfold failed. simpl. now rewrite Hres.
        - intros Hb Hi. rewrite <- Hk. apply Hfail; [exact Hb | lia]. }
      split.
      { exists a. destruct new as [| b new']; [simpl in Hlen; lia |].
        simpl in *. rewrite Hk in Hr, Hfull. split; [exact Hlast |].
        split; [exact Hr |]. intros Hf. now rewrite (Hfull Hf). }
      split.
      { intros [| i] Hi.
        - exists (length (slept w1)). rewrite Nat.add_0_r, Hslept'.
          apply in_or_app. left. apply in_or_app. right. now left.
        - destruct (Hwait i) as [k Hin]; [simpl in Hi; lia |]. exists k.
          now replace (n + S i)%nat with (S n + i)%nat by lia. }
      split; [| congruence].
      destruct Hslept as [more Hmore]. rewrite Hslept', Hmore.
      eexists. now rewrite <- !app_assoc.
Qed.

(** The requests a call adds all satisfy [P]. *)
Definition sends {A} (P : Request -> Prop) (m : M A) : Prop :=
  forall w, exists new, sent (snd (m w)) = sent w ++ new /\ Forall (fun r => P (snd r)) new.

Lemma sends_nothing {A} (P : Request -> Prop) (m : M A) :
  (forall w, sent (snd (m w)) = sent w) -> sends P m.
Proof. intros H w. exists []. rewrite app_nil_r. split; [apply H | constructor]. Qed.

Lemma sends_bind {A B} (P : Request -> Prop) (m : M A) (k : A -> M B) :
  sends P m -> (forall a, sends P (k a)) -> sends P (bind m k).
Proof.
  intros Hm Hk w. unfold bind. destruct (Hm w) as (new1 & Hs1 & Hf1).
  destruct (m w) as [[a | e] w1]; simpl in *.
  - destruct (Hk a w1) as (new2 & Hs2 & Hf2). exists (new1 ++ new2).
    rewrite Hs2, Hs1, <- app_assoc. split; [reflexivity |]. now apply Forall_app.
  - now exists new1.
Qed.

(** An attempt with a given lower bound sends only requests for the
    day of that bound. *)
Lemma fetch_once_sends t limit offset :
  sends (fun r => q_patent_date_gte r = date_of t) (fetch_once env self (Some t) limit offset).
Proof.
  intros w. unfold fetch_once, _rate_limit, bind, time_time, get_last_request_time,
    set_last_request_time, sleep, ret, raise, http_get, lift. simpl.
  destruct (Qeq_bool _ 0); simpl; [exists []; now rewrite app_nil_r |].
  destruct (Qlt_le_dec 0 _); simpl; (destruct (limit =? 0); simpl;
    [exists []; now rewrite app_nil_r |
     eexists; split; [reflexivity |]; now repeat constructor]).
Qed.

(** So does the decorated call, whatever the retries. *)
Lemma on_exception_sends {A} (P : Request -> Prop) (target : M A) factor :
  sends P target -> forall remaining n, sends P (on_exception env remaining n factor target).
Proof.
  intros Ht. induction remaining as [| remaining IH]; intros n w.
  - rewrite on_exception_last. apply Ht.
  - simpl. destruct (Ht w) as (new1 & Hs1 & Hf1).
    destruct (target w) as [[a | [re | |]] w1]; simpl in *; try now exists new1.
    unfold bind, draw_jitter, sleep. simpl.
    destruct (IH (S n) (mkWorld (clock w1 + jitter env (length (slept w1)) (expo factor n))
                          (reads w1) (last_request_time w1) (sent w1)
                          (slept w1 ++ [jitter env (length (slept w1)) (expo factor n)])
                          (store w1))) as (new2 & Hs2 & Hf2).
    simpl in Hs2. exists (new1 ++ new2).
    rewrite Hs2, Hs1, <- app_assoc. split; [reflexivity |]. now apply Forall_app.
Qed.

End Facts.



(** C3, as stated, fails: a 404 is not returned at once.  With a
    server that answers 404 and then 200, [fetch_patents] waits the
    first backoff interval, sends a second request and returns its
    page. *)
Lemma client_error_404_is_retried :
  let page := [("patents"%string, JList [])] in
  let env := mkSurroundings
               (fun n _ => match n with O => Responded 404 [] | _ => Responded 200 page end)
               (fun _ => 0%Q) (fun _ v => v) in
  let self := mkClient None 1 3 30 in
  let w := mkWorld 1000 0 0 [] [] empty_store in
  fst (fetch_patents env self (Some 0%Q) 1000 0 w) = Ok page /\
  length (sent (snd (fetch_patents env self (Some 0%Q) 1000 0 w))) = 2%nat /\
  slept (snd (fetch_patents env self (Some 0%Q) 1000 0 w)) = [2%Q].
Proof. vm_compute. repeat split; reflexivity. Qed.

(** C3 (amended).  Every failure of an attempt is a
    [RequestException]: a network error, a timeout, and every status
    from 400 to 599, the 4xx other than 429 included; there is no
    permanent class.  A call makes one to three attempts; every
    attempt before the last one failed; a failed attempt is followed by
    another one unless it was the third, each retry after a wait drawn
    from the exponential schedule [2 * 2^i]; and the call ends as its
    last attempt does. *)
Theorem every_request_failure_is_retried
    (env : Surroundings) (self : PatentsViewClient) (since : option Q) (limit offset : Z)
    (w : world) (r : result (list (string * json))) (w' : world) :
  Qeq_bool (rate_limit_per_sec self) 0 = false ->
  (limit =? 0) = false ->
  fetch_patents env self since limit offset w = (r, w') ->
  (forall status body, 400 <= status < 600 ->
     result_of (Responded status body) = Err (RequestException (HTTPError status))) /\
  result_of ConnectionFailed = Err (RequestException ConnectionError) /\
  result_of TimedOut = Err (RequestException Timeout) /\
  exists new : list (Q * Request),
    sent w' = sent w ++ new /\
    (1 <= length new <= 3)%nat /\
    (forall (i : nat) a, new !! i = Some a -> (S i < length new)%nat ->
       failed (server env (length (sent w) + i) (snd a)) = true) /\
    (exists a, last new = Some a /\
       r = result_of (server env (length (sent w) + pred (length new)) (snd a)) /\
       (failed (server env (length (sent w) + pred (length new)) (snd a)) = true ->
        length new = 3%nat)) /\
    (forall i : nat, (S i < length new)%nat ->
       exists k, In (jitter env k (expo 2 i)) (slept w')).
Proof.
  intros Hrate Hlimit Hrun.
  split.
  { intros status body [Hlo Hhi]. simpl.
    apply Z.leb_le in Hlo. apply Z.ltb_lt in Hhi. now rewrite Hlo, Hhi. }
  split; [reflexivity |]. split; [reflexivity |].
  unfold fetch_patents in Hrun.
  destruct (on_exception_attempts env self since limit offset Hrate Hlimit _ _ _ _ _ Hrun)
    as (new & Hsent & Hlen & Hfail & Hlast & Hwait & _ & _).
  exists new. repeat split; try exact Hsent; try exact Hfail; try exact Hlast;
    try exact Hwait; simpl in Hlen; lia.
Qed.

(** Two client errors, then a page. *)
Lemma every_request_failure_is_retried_witness :
  let page := [("patents"%string, JList [])] in
  let env := mkSurroundings
               (fun n _ => match n with
                           | O => Responded 404 []
                           | S O => Responded 403 []
                           | _ => Responded 200 page
                           end)
               (fun _ => 0%Q) (fun _ v => v) in
  let self := mkClient None 1 3 30 in
  let w := mkWorld 1000 0 0 [] [] empty_store in
  exists new : list (Q * Request),
    sent (snd (fetch_patents env self (Some 0%Q) 1000 0 w)) = sent w ++ new /\
    (1 <= length new <= 3)%nat /\
    (exists a, last new = Some a /\
       fst (fetch_patents env self (Some 0%Q) 1000 0 w) =
         result_of (server env (length (sent w) + pred (length new)) (snd a))).
Proof.
  intros page env self w.
  destruct (every_request_failure_is_retried env self (Some 0%Q) 1000 0 w
              (fst (fetch_patents env self (Some 0%Q) 1000 0 w))
              (snd (fetch_patents env self (Some 0%Q) 1000 0 w)))
    as (_ & _ & _ & new & Hsent & Hlen & _ & (a & Hlast & Hr & _) & _).
  - reflexivity.
  - reflexivity.
  - now destruct (fetch_patents env self (Some 0%Q) 1000 0 w).
  - exists new. split; [exact Hsent |]. split; [exact Hlen |].
    exists a. split; [exact Hlast | exact Hr].
Defined.

End ClientProps.

(* ===================================================================== *)
(** ** The ingestion run against the specification *)
(* ===================================================================== *)

Module IngestProps.
Import Json Db World Client Ingest Examples ClientProps.
Local Open Scope world_scope.

Section Run.
Variable env : Surroundings.
Variable rt : Loader.Runtime.
Variable eng : Engine.
Variable client : PatentsViewClient.
Variable since : Q.

(** The fetch of the batch after the ones already processed. *)
Definition fetch_next (all : AllStats) : M (list (string * json)) :=
  fetch_patents env client (Some since) batch_size (batches_processed all * batch_size).

(** The run of the loop as the specification words it: fetch a page,
    load it, and stop when the page was empty, when it was shorter
    than the page size, or when the batches processed reach the cap;
    otherwise fetch again.  A fetch that raises, or a page that is
    not a list of records, ends the run with the exception. *)
Inductive loop_run : AllStats -> world -> result (option AllStats) * world -> Prop :=
| run_fetch_raises all w e w1 :
    fetch_next all w = (Err e, w1) ->
    loop_run all w (Err e, w1)
| run_stop_empty_page all w response w1 :
    fetch_next all w = (Ok response, w1) ->
    truthy (get response "patents") = false ->
    loop_run all w (Ok (Some all), w1)
| run_page_ill_typed all w response w1 :
    fetch_next all w = (Ok response, w1) ->
    truthy (get response "patents") = true ->
    records_of (get response "patents") = None ->
    loop_run all w (Err (IllTypedPage (get response "patents")), w1)
| run_stop_short_page all w response w1 patents_data stats w2 :
    fetch_next all w = (Ok response, w1) ->
    truthy (get response "patents") = true ->
    records_of (get response "patents") = Some patents_data ->
    load env rt eng patents_data w1 = (Ok stats, w2) ->
    Z.of_nat (length patents_data) < batch_size ->
    loop_run all w (Ok (Some (add_stats all stats)), w2)
| run_stop_cap all w response w1 patents_data stats w2 :
    fetch_next all w = (Ok response, w1) ->
    truthy (get response "patents") = true ->
    records_of (get response "patents") = Some patents_data ->
    load env rt eng patents_data w1 = (Ok stats, w2) ->
    batch_size <= Z.of_nat (length patents_data) ->
    batches_processed (add_stats all stats) = max_batches ->
    loop_run all w (Ok (Some (add_stats all stats)), w2)
| run_advance all w response w1 patents_data stats w2 res :
    fetch_next all w = (Ok response, w1) ->
    truthy (get response "patents") = true ->
    records_of (get response "patents") = Some patents_data ->
    load env rt eng patents_data w1 = (Ok stats, w2) ->
    batch_size <= Z.of_nat (length patents_data) ->
    batches_processed (add_stats all stats) < max_batches ->
    loop_run (add_stats all stats) w2 res ->
    loop_run all w res.

(** The run of the specification is determined by the world it starts in. *)
Lemma loop_run_unique all w r1 r2 :
  loop_run all w r1 -> loop_run all w r2 -> r1 = r2.
Proof.
  intros H1. revert r2.
  induction H1; intros r2 Hother; inversion Hother; subst;
    repeat match goal with
      | H : fetch_next ?a ?w = _, H' : fetch_next ?a ?w = _ |- _ =>
          rewrite H in H'; inversion H'; subst; clear H'
      | H : records_of ?p = _, H' : records_of ?p = _ |- _ =>
          rewrite H in H'; inversion H'; subst; clear H'
      | H : load _ _ _ ?p ?w = _, H' : load _ _ _ ?p ?w = _ |- _ =>
          rewrite H in H'; inversion H'; subst; clear H'
      end;
    try congruence; try lia; auto.
Qed.

Lemma load_returns patents_data w :
  exists stats w', load env rt eng patents_data w = (Ok stats, w').
Proof.
  unfold load, bind, time_time, get_store. simpl.
  destruct (Loader.load_patents _ _ _ _ _) as [stats s']. simpl. eauto.
Qed.

(** A result of the loop started after [all] in [w]: it is not an
    exhausted fuel, it is a run of the specification, and it has
    processed at most [max_batches] batches. *)
Definition ends_well (all : AllStats) (w : world)
    (res : result (option AllStats) * world) : Prop :=
  fst res <> Ok None /\
  loop_run all w res /\
  (forall a, fst res = Ok (Some a) ->
             batches_processed all <= batches_processed a <= max_batches).

(** One iteration under the cap: it ends well by itself, or ends as
    the rest of the loop does after a full page. *)
Lemma ingest_loop_step fuel all w :
  batches_processed all < max_batches ->
  (forall response w1 patents_data stats w2,
      fetch_next all w = (Ok response, w1) ->
      truthy (get response "patents") = true ->
      records_of (get response "patents") = Some patents_data ->
      load env rt eng patents_data w1 = (Ok stats, w2) ->
      batch_size <= Z.of_nat (length patents_data) ->
      ends_well all w
        (ingest_loop env rt eng fuel client since
           (batches_processed (add_stats all stats) * batch_size)
           (add_stats all stats) w2)) ->
  ends_well all w
    (ingest_loop env rt eng (S fuel) client since
       (batches_processed all * batch_size) all w).
Proof.
  intros Hcap Hnext. unfold ends_well. cbn [ingest_loop].
  assert ((batches_processed all * batch_size <? max_batches * batch_size) = true) as ->
    by (apply Z.ltb_lt; unfold batch_size, max_batches in *; lia).
  unfold bind. fold (fetch_next all).
  destruct (fetch_next all w) as [[response | e] w1] eqn:Hfetch.
  2:{ cbn [fst]. split; [discriminate |]. split;
        [now apply run_fetch_raises | intros a; discriminate]. }
  destruct (truthy (get response "patents")) eqn:Hpage; cbn [negb].
  2:{ unfold ret. cbn [fst]. split; [discriminate |]. split;
        [now apply (run_stop_empty_page all w response) |].
      intros a [= <-]. lia. }
  destruct (records_of (get response "patents")) as [patents_data |] eqn:Hrecs.
  2:{ unfold raise. cbn [fst]. split; [discriminate |]. split;
        [now apply run_page_ill_typed | intros a; discriminate]. }
  destruct (load_returns patents_data w1) as (stats & w2 & Hload). rewrite Hload.
  destruct (Z.of_nat (length patents_data) <? batch_size) eqn:Hshort.
  { apply Z.ltb_lt in Hshort. unfold ret. cbn [fst].
    split; [discriminate |]. split;
      [now apply (run_stop_short_page all w response w1 patents_data stats w2) |].
    intros a [= <-]. cbn [add_stats batches_processed]. lia. }
  apply Z.ltb_ge in Hshort.
  replace (batches_processed all * batch_size + batch_size)
    with (batches_processed (add_stats all stats) * batch_size)
    by (cbn [add_stats batches_processed]; lia).
  apply (Hnext response w1 patents_data stats w2); auto.
Qed.

(** With [S n] batches left under the cap and more than [S n]
    iterations of fuel, the loop ends well. *)
Lemma ingest_loop_runs (n : nat) : forall fuel all w,
  batches_processed all = max_batches - Z.of_nat (S n) ->
  (S n < fuel)%nat ->
  ends_well all w
    (ingest_loop env rt eng fuel client since (batches_processed all * batch_size) all w).
Proof.
  induction n as [| n IH]; intros fuel all w Hleft Hfuel;
    (destruct fuel as [| fuel]; [lia |]);
    (apply ingest_loop_step; [lia |]);
    intros response w1 patents_data stats w2 Hfetch Hpage Hrecs Hload Hfull.
  - (* the last batch under the cap *)
    destruct fuel as [| fuel]; [lia |]. cbn [ingest_loop].
    assert ((batches_processed (add_stats all stats) * batch_size
               <? max_batches * batch_size) = false) as ->
      by (apply Z.ltb_ge; cbn [add_stats batches_processed];
          unfold batch_size, max_batches in *; lia).
    unfold ret, ends_well. cbn [fst].
    split; [discriminate |]. split.
    + apply (run_stop_cap all w response w1 patents_data stats w2); auto.
      cbn [add_stats batches_processed]. lia.
    + intros a [= <-]. cbn [add_stats batches_processed]. lia.
  - (* more batches may follow *)
    destruct (IH fuel (add_stats all stats) w2) as (Hret & Hrun & Hbound);
      [cbn [add_stats batches_processed]; lia | lia |].
    split; [exact Hret |]. split.
    + apply (run_advance all w response w1 patents_data stats w2); auto.
      cbn [add_stats batches_processed]. lia.
    + intros a Ha. specialize (Hbound a Ha).
      cbn [add_stats batches_processed] in Hbound. lia.
Qed.

(** Every request of the loop asks for the day of [since]. *)
Lemma ingest_loop_sends fuel : forall offset all,
  sends (fun r => q_patent_date_gte r = date_of since)
        (ingest_loop env rt eng fuel client since offset all).
Proof.
  induction fuel as [| fuel IH]; intros offset all; cbn [ingest_loop];
    [now apply sends_nothing |].
  destruct (offset <? max_batches * batch_size); [| now apply sends_nothing].
  apply sends_bind.
  - apply on_exception_sends, fetch_once_sends.
  - intros response.
    destruct (truthy (get response "patents")); cbn [negb]; [| now apply sends_nothing].
    destruct (records_of (get response "patents")) as [patents_data |];
      [| now apply sends_nothing].
    apply sends_bind.
    + apply sends_nothing. intros w. unfold load, bind, time_time, get_store. simpl.
      now destruct (Loader.load_patents _ _ _ _ _).
    + intros stats. destruct (Z.of_nat (length patents_data) <? batch_size);
        [now apply sends_nothing | apply IH].
Qed.

End Run.

(** C7.  Every run of [ingest_patents] returns (the fuel of the model
    is never exhausted), with at most [max_batches] batches processed,
    and it is the run, the only one, of the loop of the
    specification: after a loaded batch it fetches again unless the
    page was shorter than the page size or the batches processed
    reached [max_batches], it stops on an empty page, and it stops in
    no other way short of an exception. *)
Theorem ingestion_loop_stops_at_its_stop_conditions
    (env : Surroundings) (rt : Loader.Runtime) (eng : Engine)
    (api_key : option string) (since_days : Z) (w : world) :
  let w0 := snd (time_time env (snd (set_last_request_time 0 w))) in
  let res := ingest_patents env rt eng api_key since_days w in
  fst res <> Ok None /\
  loop_run env rt eng (mkClient api_key 1 3 30) (since_of (clock w0) since_days)
           (mkAllStats 0 0 0 0) w0 res /\
  (forall res', loop_run env rt eng (mkClient api_key 1 3 30)
                  (since_of (clock w0) since_days) (mkAllStats 0 0 0 0) w0 res' ->
                res' = res) /\
  (forall all, fst res = Ok (Some all) -> 0 <= batches_processed all <= max_batches).
Proof.
  intros w0 res.
  assert (let run := loop_run env rt eng (mkClient api_key 1 3 30)
                       (since_of (clock w0) since_days) (mkAllStats 0 0 0 0) w0 in
          run res -> (forall res', run res' -> res' = res)) as Huniq.
  { intros run Hres res' Hres'. eapply loop_run_unique; eauto. }
  revert Huniq.
  assert (res = ingest_loop env rt eng (S (Z.to_nat max_batches)) (mkClient api_key 1 3 30)
                  (since_of (clock w0) since_days)
                  (batches_processed (mkAllStats 0 0 0 0) * batch_size)
                  (mkAllStats 0 0 0 0) w0) as -> by reflexivity.
  intros Huniq.
  destruct (ingest_loop_runs env rt eng (mkClient api_key 1 3 30)
              (since_of (clock w0) since_days) 9 (S (Z.to_nat max_batches))
              (mkAllStats 0 0 0 0) w0) as (Hret & Hrun & Hbound).
  - reflexivity.
  - unfold max_batches. rewrite Z2Nat.inj_pos. lia.
  - split; [exact Hret |]. split; [exact Hrun |]. split; [now apply Huniq | exact Hbound].
Qed.

(** C5, as stated, fails: the lower bound of the fetch is not the
    maximum of the watermark and [now - since_days].  With a stored
    publication date of day 100 and a run started on day 101 with
    [since_days = 7], the watermark is the later of the two, yet the
    request asks for the patents from day 94 on. *)
Lemma since_ignores_the_stored_watermark :
  let row := mkPatentRow (JStr "USA") (Some (inject_Z (100 * 86400))) None (JStr "a") JNull
               JNull None [] 0 EmptyString 0%Q None in
  let s := mkStore {[JStr "A" := row]} ∅ ∅ ∅ ∅ in
  let now := inject_Z (101 * 86400) in
  let env := mkSurroundings (fun _ _ => Responded 200 [("patents"%string, JList [])])
               (fun _ => 0%Q) (fun _ v => v) in
  let w := mkWorld now 0 0 [] [] s in
  Loader.get_last_ingestion_date s = Some (inject_Z (100 * 86400)) /\
  Qle_bool (since_of now 7) (inject_Z (100 * 86400)) = true /\
  date_of (inject_Z (100 * 86400)) = 100 /\
  List.map (fun r => q_patent_date_gte (snd r))
    (sent (snd (ingest_patents env runtime (accepting true) None 7 w))) = [94].
Proof. vm_compute. repeat split; reflexivity. Qed.

(** C5 (amended).  At the start of every ingestion run the lower
    bound of the fetch is [since = now - since_days], where [now] is
    the reading of the clock at the start of the run; every request of
    the run asks for the patents from the day of that bound on,
    whatever the store holds. *)
Theorem since_is_now_minus_since_days
    (env : Surroundings) (rt : Loader.Runtime) (eng : Engine)
    (api_key : option string) (since_days : Z) (w : world) :
  exists new : list (Q * Request),
    sent (snd (ingest_patents env rt eng api_key since_days w)) = sent w ++ new /\
    Forall (fun r => q_patent_date_gte (snd r) =
                     date_of (since_of (clock w + lag env (reads w)) since_days)) new.
Proof.
  unfold ingest_patents, bind, set_last_request_time, time_time. cbn [fst snd].
  apply (ingest_loop_sends env rt eng (mkClient api_key 1 3 30)
           (since_of (clock w + lag env (reads w)) since_days)
           (S (Z.to_nat max_batches)) 0 (mkAllStats 0 0 0 0)
           (mkWorld (clock w + lag env (reads w)) (S (reads w)) 0 (sent w) (slept w) (store w))).
Qed.

End IngestProps.

(* ===================================================================== *)
(** ** Embedding synchronisation against the specification *)
(* ===================================================================== *)

Module EmbedProps.
Import Json Db Embed.

(** The ids of a list of points, and the positions of a list. *)
Definition ids (pts : list PointStruct) : list Z := List.map id pts.

Definition positions {A} (l : list A) : list Z := List.map Z.of_nat (seq 0 (length l)).

Lemma imap_ids_from {A} (l : list A) : forall (f : nat -> A -> PointStruct) (k : nat),
  (forall i x, id (f i x) = Z.of_nat (k + i)) ->
  ids (imap f l) = List.map Z.of_nat (seq k (length l)).
Proof.
  unfold ids. induction l as [| x l IH]; intros f k Hf; simpl; [reflexivity |].
  rewrite Hf, Nat.add_0_r. f_equal. apply (IH (f ∘ S) (S k)).
  intros i y. unfold compose. rewrite Hf. f_equal. lia.
Qed.

Lemma imap_ids {A} (f : nat -> A -> PointStruct) (l : list A) :
  (forall i x, id (f i x) = Z.of_nat i) ->
  ids (imap f l) = positions l.
Proof. intros Hf. now apply imap_ids_from. Qed.

(** The keys of the collection after an upsert. *)
Lemma dom_upsert (pts : list PointStruct) : forall m : gmap Z Point,
  dom (upsert pts m) = list_to_set (ids pts) ∪ dom m.
Proof.
  unfold upsert, ids. induction pts as [| p pts IH]; intros m; simpl.
  - change (dom m = ∅ ∪ dom m). now rewrite union_empty_l_L.
  - rewrite IH, dom_insert_L.
    change (list_to_set (List.map id pts) ∪ ({[id p]} ∪ dom m) =
            ({[id p]} ∪ list_to_set (List.map id pts)) ∪ dom m).
    rewrite (union_comm_L {[id p]} (list_to_set (List.map id pts))).
    now rewrite <- union_assoc_L.
Qed.

(** An upsert is determined, at each id, by the last point with that
    id, and leaves the other ids alone. *)
Fixpoint last_with (k : Z) (pts : list PointStruct) (found : option Point) : option Point :=
  match pts with
  | [] => found
  | p :: rest =>
      last_with k rest (if decide (id p = k) then Some (mkPoint (ps_vector p) (ps_payload p))
                        else found)
  end.

Lemma lookup_upsert (pts : list PointStruct) : forall (m : gmap Z Point) (k : Z),
  upsert pts m !! k = last_with k pts (m !! k).
Proof.
  unfold upsert. induction pts as [| p pts IH]; intros m k; simpl; [reflexivity |].
  rewrite IH. f_equal. destruct (decide (id p = k)) as [<- | Hne].
  - apply lookup_insert_eq.
  - now apply lookup_insert_ne.
Qed.

Lemma last_with_idem k pts : forall found,
  last_with k pts (last_with k pts found) = last_with k pts found.
Proof.
  assert (forall pts found found', (exists p, In p pts /\ id p = k) ->
            last_with k pts found = last_with k pts found') as Hsome.
  { clear pts. induction pts as [| p pts IH]; intros found found' [q [Hq Hk]];
      [destruct Hq |]. simpl.
    destruct (decide (id p = k)) as [_ | Hne]; [reflexivity |].
    apply IH. destruct Hq as [-> | Hq]; [contradiction | eauto]. }
  assert (forall pts found, (forall p, In p pts -> id p <> k) ->
            last_with k pts found = found) as Hnone.
  { clear pts Hsome. induction pts as [| p pts IH]; intros found Hall; [reflexivity |].
    simpl. destruct (decide (id p = k)) as [Heq | _].
    - destruct (Hall p (or_introl eq_refl) Heq).
    - apply IH. intros q Hq. apply Hall. now right. }
  intros found.
  destruct (List.existsb (fun p => bool_decide (id p = k)) pts) eqn:E.
  - apply Hsome. apply List.existsb_exists in E. destruct E as (p & Hp & Hk).
    apply bool_decide_eq_true in Hk. eauto.
  - rewrite (Hnone pts (last_with k pts found)); [reflexivity |].
    intros p Hp Hk. assert (List.existsb (fun p => bool_decide (id p = k)) pts = true) as E'.
    { apply List.existsb_exists. exists p. split; [exact Hp |]. now apply bool_decide_eq_true. }
    congruence.
Qed.

(** Upserting the same points again changes nothing. *)
Lemma upsert_idem (pts : list PointStruct) (m : gmap Z Point) :
  upsert pts (upsert pts m) = upsert pts m.
Proof.
  apply map_eq. intros k. rewrite !lookup_upsert. apply last_with_idem.
Qed.

Lemma positions_NoDup {A} (l : list A) : NoDup (positions l).
Proof.
  unfold positions. apply (NoDup_fmap_2 Z.of_nat). apply NoDup_seq.
Qed.

Lemma positions_length {A} (l : list A) : length (positions l) = length l.
Proof. unfold positions. now rewrite List.length_map, length_seq. Qed.

(** From an empty collection, points with distinct ids make as many
    stored points. *)
Lemma size_upsert_empty (pts : list PointStruct) :
  NoDup (ids pts) -> size (upsert pts ∅) = length pts.
Proof.
  intros Hnd. rewrite <- size_dom, dom_upsert, dom_empty_L, union_empty_r_L.
  rewrite size_list_to_set by exact Hnd. unfold ids. apply List.length_map.
Qed.




(** The patents selected are those that have no row in [embeddings]. *)
Lemma needing_elem (rel : Rel) (pid : json) (row : PatentRow) :
  (pid, row) ∈ needing rel <->
  rel_patents rel !! pid = Some row /\ rel_embeddings rel !! pid = None.
Proof.
  unfold needing. rewrite merge_sort_Permutation, list_elem_of_filter, elem_of_map_to_list.
  simpl. tauto.
Qed.

Lemma selection_sound (rel : Rel) (limit : option Z) rows pid ttl abs :
  get_patents_needing_embeddings rel limit = inr rows ->
  In (pid, ttl, abs) rows ->
  rel_embeddings rel !! pid = None /\
  exists row, rel_patents rel !! pid = Some row /\ ttl = title row /\ abs = abstract row.
Proof.
  unfold get_patents_needing_embeddings. intros Hsel Hin.
  assert (In (pid, ttl, abs)
            (List.map (fun kv => (fst kv, title (snd kv), abstract (snd kv))) (needing rel)))
    as Hall.
  { destruct limit as [n |]; [| now injection Hsel as <-].
    destruct (n =? 0); [now injection Hsel as <- |].
    destruct (n <? 0); [discriminate |]. injection Hsel as <-.
    apply list_elem_of_In. apply list_elem_of_In in Hin.
    now apply (subseteq_take (Z.to_nat n)). }
  apply List.in_map_iff in Hall. destruct Hall as ([pid' row] & [= Hp Ht Ha] & Hneed).
  simpl in Hp, Ht, Ha. subst pid' ttl abs.
  apply list_elem_of_In, needing_elem in Hneed. destruct Hneed as [Hrow Hnone].
  split; [exact Hnone |]. exists row. now repeat split.
Qed.

Lemma selection_complete (rel : Rel) pid row :
  rel_patents rel !! pid = Some row -> rel_embeddings rel !! pid = None ->
  exists rows, get_patents_needing_embeddings rel None = inr rows /\
               In (pid, title row, abstract row) rows.
Proof.
  intros Hrow Hnone. eexists. split; [reflexivity |].
  apply List.in_map_iff. exists (pid, row). split; [reflexivity |].
  apply list_elem_of_In, needing_elem. now split.
Qed.

(** After the relational write every stored embedding has its row. *)
Lemma upsert_embedding_rows (env : Env) (data : list Embedding) :
  forall tbl : gmap json EmbeddingRow,
    (forall k, is_Some (tbl !! k) -> is_Some (foldl (upsert_embedding env) tbl data !! k)) /\
    (forall e, In e data -> is_Some (foldl (upsert_embedding env) tbl data !! e_patent_id e)).
Proof.
  assert (forall (tbl : gmap json EmbeddingRow) e k,
             is_Some (tbl !! k) \/ k = e_patent_id e ->
             is_Some (upsert_embedding env tbl e !! k)) as Hone.
  { intros tbl e k Hk. unfold upsert_embedding.
    destruct (decide (k = e_patent_id e)) as [-> | Hne].
    - destruct (tbl !! e_patent_id e); rewrite lookup_insert_eq; eauto.
    - destruct Hk as [Hk | Hk]; [| contradiction].
      destruct (tbl !! e_patent_id e); now rewrite lookup_insert_ne. }
  induction data as [| e data IH]; intros tbl; simpl.
  - split; [auto | intros e []].
  - destruct (IH (upsert_embedding env tbl e)) as [Hkeep Hnew]. split.
    + intros k Hk. apply Hkeep, Hone. now left.
    + intros e' [<- | Hin]; [| now apply Hnew].
      apply Hkeep, Hone. now right.
Qed.




End EmbedProps.


(* ===================================================================== *)
(** ** More on the loader: what a load keeps, adds and repeats *)
(* ===================================================================== *)

Module LoaderMore.
Import Json Db Loader LoaderProps Examples.

(** The columns of a patent row that no statement of the loader
    updates. *)
Definition same_fixed_columns (r r' : PatentRow) : Prop :=
  publication_number r' = publication_number r /\
  publication_date r' = publication_date r /\
  filing_date r' = filing_date r /\
  title r' = title r /\
  primary_cpc_code r' = primary_cpc_code r /\
  cpc_codes r' = cpc_codes r /\
  num_citations r' = num_citations r /\
  ingested_at r' = ingested_at r.

(** The columns of an assignee or inventor row that no statement of
    the loader updates. *)
Definition same_entity (r r' : EntityRow) : Prop :=
  ent_name r' = ent_name r /\ ent_type r' = ent_type r /\
  ent_raw_data r' = ent_raw_data r /\ ent_ingested_at r' = ent_ingested_at r.

(** [s'] extends [s]: every row of [s] is still there, with its fixed
    columns, and every link row is there unchanged. *)
Definition extends (s s' : Store) : Prop :=
  (forall id r, patents s !! id = Some r ->
     exists r', patents s' !! id = Some r' /\ same_fixed_columns r r') /\
  (forall id r, assignees s !! id = Some r ->
     exists r', assignees s' !! id = Some r' /\ same_entity r r') /\
  (forall id r, inventors s !! id = Some r ->
     exists r', inventors s' !! id = Some r' /\ same_entity r r') /\
  patent_assignees s ⊆ patent_assignees s' /\
  patent_inventors s ⊆ patent_inventors s'.

(** A statement as the loader binds it: the primary CPC code is the
    first of the codes and the citation count is a length. *)
Definition loader_stmt (st : Stmt) : Prop :=
  match st with
  | UpsertPatent _ _ _ _ _ _ _ cpc cpcs citations _ => cpc = head cpcs /\ 0 <= citations
  | _ => True
  end.

(** A statement that is not the upsert of the patent row of [pid]. *)
Definition spares (pid : json) (st : Stmt) : Prop :=
  match st with
  | UpsertPatent id _ _ _ _ _ _ _ _ _ _ => id <> pid
  | _ => True
  end.

Definition is_patent_stmt (st : Stmt) : bool :=
  match st with UpsertPatent _ _ _ _ _ _ _ _ _ _ _ => true | _ => false end.

(** A relation between the store before and after that every allowed
    statement establishes is established by the whole load. *)
Section Monotone.
Variable rt : Runtime.
Variable eng : Engine.
Variable R : Store -> Store -> Prop.
Variable allowed : Stmt -> Prop.
Hypothesis R_refl : forall s, R s s.
Hypothesis R_trans : forall s1 s2 s3, R s1 s2 -> R s2 s3 -> R s1 s3.
Hypothesis allowed_other : forall st, is_patent_stmt st = false -> allowed st.
Hypothesis R_apply : forall now s st, allowed st -> R s (apply_stmt eng now s st).

Lemma execute_R t st : allowed st -> R (work t) (work (fst (execute eng t st))).
Proof.
  intros Hal. unfold execute.
  destruct (strict eng && aborted t); [apply R_refl |].
  destruct (rejects eng (work t) st); [apply R_refl |]. simpl. now apply R_apply.
Qed.

Lemma load_assignees_R patent_id l : forall idx t,
  R (work t) (work (fst (load_assignees rt eng patent_id idx l t))).
Proof.
  induction l as [| a rest IH]; intros idx t; simpl; [apply R_refl |].
  destruct (truthy a); simpl; [| apply IH].
  destruct a; try apply R_refl.
  destruct (truthy (get fields "assignee_id")); simpl; [| apply IH].
  pose proof (execute_R t (UpsertAssignee (get fields "assignee_id")
    (get fields "assignee_name") (get fields "assignee_type") (json_dumps rt (JObj fields)))
    (allowed_other (UpsertAssignee _ _ _ _) eq_refl)) as H1.
  destruct (execute eng t _) as [t1 [e |]]; simpl in *; [exact H1 |].
  pose proof (execute_R t1 (LinkAssignee patent_id (get fields "assignee_id") idx)
    (allowed_other (LinkAssignee _ _ _) eq_refl)) as H2.
  destruct (execute eng t1 _) as [t2 [e |]]; simpl in *; [eauto |].
  eapply R_trans; [exact H1 |]. eapply R_trans; [exact H2 | apply IH].
Qed.

Lemma load_inventors_R patent_id l : forall idx t,
  R (work t) (work (fst (load_inventors rt eng patent_id idx l t))).
Proof.
  induction l as [| a rest IH]; intros idx t; simpl; [apply R_refl |].
  destruct (truthy a); simpl; [| apply IH].
  destruct a; try apply R_refl.
  destruct (truthy (get fields "inventor_id")); simpl; [| apply IH].
  pose proof (execute_R t (UpsertInventor (get fields "inventor_id")
    (get fields "inventor_name") (json_dumps rt (JObj fields)))
    (allowed_other (UpsertInventor _ _ _) eq_refl)) as H1.
  destruct (execute eng t _) as [t1 [e |]]; simpl in *; [exact H1 |].
  pose proof (execute_R t1 (LinkInventor patent_id (get fields "inventor_id") idx)
    (allowed_other (LinkInventor _ _ _) eq_refl)) as H2.
  destruct (execute eng t1 _) as [t2 [e |]]; simpl in *; [eauto |].
  eapply R_trans; [exact H1 |]. eapply R_trans; [exact H2 | apply IH].
Qed.

Lemma load_record_R patent t :
  allowed (patent_stmt rt patent) ->
  R (work t) (work (fst (load_record rt eng patent t))).
Proof.
  intros Hal. unfold load_record.
  destruct (truthy (get patent "patent_id")); simpl; [| apply R_refl].
  pose proof (execute_R t (patent_stmt rt patent) Hal) as H1.
  destruct (execute eng t _) as [t1 [e |]]; simpl in *; [exact H1 |].
  pose proof (load_assignees_R (get patent "patent_id") (as_list patent "assignees") 0 t1)
    as H2.
  destruct (load_assignees _ _ _ _ _ t1) as [t2 [e |]]; simpl in *; [eauto |].
  pose proof (load_inventors_R (get patent "patent_id") (as_list patent "inventors") 0 t2)
    as H3.
  destruct (load_inventors _ _ _ _ _ t2) as [t3 [e |]]; simpl in *; eauto.
Qed.

Lemma load_loop_R batch : forall t st,
  (forall p, In p batch -> allowed (patent_stmt rt p)) ->
  R (work t) (work (fst (load_loop rt eng batch t st))).
Proof.
  induction batch as [| p rest IH]; intros t st Hall; simpl; [apply R_refl |].
  pose proof (load_record_R p t (Hall p (or_introl eq_refl))) as H1.
  destruct (load_record rt eng p t) as [t1 o]; simpl in *.
  eapply R_trans; [exact H1 |]. apply IH. intros q Hq. apply Hall. now right.
Qed.

Lemma load_patents_R now s batch :
  (forall p, In p batch -> allowed (patent_stmt rt p)) ->
  R s (snd (load_patents rt eng now s batch)).
Proof.
  intros Hall. unfold load_patents.
  pose proof (load_loop_R batch (begin now s) stats0 Hall) as Hw.
  pose proof (load_loop_frame rt eng JNull (fun _ => True) batch (begin now s) stats0)
    as (Hb & _ & _).
  destruct (load_loop rt eng batch (begin now s) stats0) as [t st]. simpl in *.
  unfold commit. destruct (strict eng && aborted t); [rewrite Hb; apply R_refl | exact Hw].
Qed.

End Monotone.

Lemma extends_refl s : extends s s.
Proof.
  repeat split; try (intros id r Hr; exists r; now repeat split); reflexivity.
Qed.

Lemma extends_trans s1 s2 s3 : extends s1 s2 -> extends s2 s3 -> extends s1 s3.
Proof.
  intros (Hp1 & Ha1 & Hi1 & Hl1 & Hm1) (Hp2 & Ha2 & Hi2 & Hl2 & Hm2).
  split; [| split; [| split; [| split]]].
  - intros id r Hr. destruct (Hp1 id r Hr) as (r1 & Hr1 & H1).
    destruct (Hp2 id r1 Hr1) as (r2 & Hr2 & H2). exists r2. split; [exact Hr2 |].
    unfold same_fixed_columns in *. intuition congruence.
  - intros id r Hr. destruct (Ha1 id r Hr) as (r1 & Hr1 & H1).
    destruct (Ha2 id r1 Hr1) as (r2 & Hr2 & H2). exists r2. split; [exact Hr2 |].
    unfold same_entity in *. intuition congruence.
  - intros id r Hr. destruct (Hi1 id r Hr) as (r1 & Hr1 & H1).
    destruct (Hi2 id r1 Hr1) as (r2 & Hr2 & H2). exists r2. split; [exact Hr2 |].
    unfold same_entity in *. intuition congruence.
  - now transitivity (patent_assignees s2).
  - now transitivity (patent_inventors s2).
Qed.

Lemma upsert_entity_extends eng now (tbl : gmap json EntityRow) id name type raw :
  forall k r, tbl !! k = Some r ->
    exists r', upsert_entity eng now tbl id name type raw !! k = Some r' /\ same_entity r r'.
Proof.
  intros k r Hr. unfold upsert_entity.
  destruct (decide (id = k)) as [-> | Hne].
  - rewrite Hr, lookup_insert_eq. eexists. split; [reflexivity |]. now repeat split.
  - destruct (tbl !! id); rewrite lookup_insert_ne by exact Hne;
      exists r; now repeat split.
Qed.

Lemma insert_link_subseteq (tbl : gmap (json * json) Z) pid eid pos :
  tbl ⊆ insert_link tbl pid eid pos.
Proof.
  unfold insert_link. destruct (tbl !! (pid, eid)) eqn:E; [reflexivity |].
  now apply insert_subseteq.
Qed.

Lemma apply_stmt_extends eng now s st : extends s (apply_stmt eng now s st).
Proof.
  destruct (extends_refl s) as (Hp & Ha & Hi & Hl & Hm).
  destruct st; simpl; (split; [| split; [| split; [| split]]]); simpl;
    try exact Hp; try exact Ha; try exact Hi; try exact Hl; try exact Hm;
    try apply upsert_entity_extends; try apply insert_link_subseteq.
  intros k r Hr. unfold upsert_patent.
  destruct (decide (patent_id = k)) as [-> | Hne].
  - rewrite Hr, lookup_insert_eq. eexists. split; [reflexivity |]. now repeat split.
  - destruct (patents s !! patent_id); rewrite lookup_insert_ne by exact Hne;
      exists r; now repeat split.
Qed.

(** X1.  A load never deletes a row and never rewrites the identity
    of one: whatever the batch and the engine, every patent row
    stored before is still stored after it with the same publication
    number, dates, title, CPC codes, citation count and [ingested_at];
    every assignee and inventor row is still there with its name,
    type, payload and [ingested_at]; and every link row is still there
    with its position. *)
Theorem load_keeps_every_row_and_its_fixed_columns
    (rt : Runtime) (eng : Engine) (now : Q) (s : Store) (batch : list (list (string * json))) :
  extends s (snd (load_patents rt eng now s batch)).
Proof.
  apply (load_patents_R rt eng extends (fun _ => True)); auto.
  - apply extends_refl.
  - apply extends_trans.
  - intros now' s' st _. apply apply_stmt_extends.
Qed.

(** Every stored patent row has the first of its CPC codes as primary
    code and a citation count that is not negative. *)
Definition well_formed (s : Store) : Prop :=
  forall id r, patents s !! id = Some r ->
    primary_cpc_code r = head (cpc_codes r) /\ 0 <= num_citations r.

Lemma loader_stmt_patent rt patent : loader_stmt (patent_stmt rt patent).
Proof.
  unfold patent_stmt, loader_stmt, count_citations. split; [reflexivity |].
  destruct (get patent "cited_patent_id"); lia.
Qed.

Lemma apply_stmt_well_formed eng now s st :
  loader_stmt st -> well_formed s -> well_formed (apply_stmt eng now s st).
Proof.
  intros Hst Hwf. destruct st; simpl; try exact Hwf.
  intros k r. simpl. unfold upsert_patent.
  destruct (decide (patent_id = k)) as [-> | Hne].
  - destruct (patents s !! k) as [old |] eqn:Hold; rewrite lookup_insert_eq; intros [= <-].
    + simpl. exact (Hwf k old Hold).
    + simpl. exact Hst.
  - destruct (patents s !! patent_id); rewrite lookup_insert_ne by exact Hne; apply Hwf.
Qed.

(** X2.  The loader keeps the patents table well formed: if every
    stored row has the first of its CPC codes as primary code (none
    when it has no code) and a citation count that is not negative,
    the same holds of every row after a load, whatever the batch and
    whatever the engine rejects. *)
Theorem load_keeps_primary_cpc_first_of_codes
    (rt : Runtime) (eng : Engine) (now : Q) (s : Store) (batch : list (list (string * json))) :
  well_formed s -> well_formed (snd (load_patents rt eng now s batch)).
Proof.
  apply (load_patents_R rt eng (fun a b => well_formed a -> well_formed b) loader_stmt).
  - auto.
  - auto.
  - intros st Hst. destruct st; try exact I. discriminate.
  - intros now' s' st Hst. now apply apply_stmt_well_formed.
  - intros p _. apply loader_stmt_patent.
Qed.

Lemma load_keeps_primary_cpc_first_of_codes_witness :
  let row := mkPatentRow (JStr "USA") None None (JStr "a") JNull JNull (Some "G06F"%string)
               ["G06F"; "H04L"]%string 2 EmptyString 0%Q None in
  let s := mkStore {[JStr "A" := row]} ∅ ∅ ∅ ∅ in
  well_formed s /\
  well_formed (snd (load_patents runtime (accepting true) 5 s
                      [[("patent_id", JStr "B"); ("cpc_code", JList [JStr "A01B"; JStr "B60K"])];
                       patent "A" "t"]%string)).
Proof.
  intros row s.
  assert (well_formed s) as Hwf.
  { intros id r Hr. unfold s in Hr. cbn [patents] in Hr.
    apply lookup_singleton_Some in Hr as [_ <-]. simpl. split; [reflexivity | lia]. }
  split; [exact Hwf |].
  now apply (load_keeps_primary_cpc_first_of_codes runtime (accepting true) 5 s).
Defined.

Lemma apply_stmt_spares eng now s st pid :
  spares pid st -> patents (apply_stmt eng now s st) !! pid = patents s !! pid.
Proof.
  intros Hst. destruct st; simpl; try reflexivity. simpl in Hst. unfold upsert_patent.
  destruct (patents s !! patent_id); now rewrite lookup_insert_ne.
Qed.





(** Two runs of the loader over the same records, side by side, with
    an engine that rejects no statement: a relation between the two
    stores that the same statement keeps is kept, and the two runs
    end the same way. *)
Section Lockstep.
Variable rt : Runtime.
Variable eng : Engine.
Variable Q : Store -> Store -> Prop.
Hypothesis Hacc : accepts_all eng.
Hypothesis Q_apply : forall now now' a b st,
  Q a b -> Q (apply_stmt eng now a st) (apply_stmt eng now' b st).

Definition paired (a b : Txn) : Prop :=
  aborted a = false /\ aborted b = false /\ Q (work a) (work b).

Lemma execute_paired a b st :
  paired a b ->
  exists a' b', execute eng a st = (a', None) /\ execute eng b st = (b', None) /\ paired a' b'.
Proof.
  intros (Ha & Hb & HQ). rewrite !execute_accepted by assumption.
  do 2 eexists. split; [reflexivity |]. split; [reflexivity |].
  repeat split. simpl. now apply Q_apply.
Qed.

Lemma load_assignees_paired patent_id l : forall idx a b,
  paired a b ->
  paired (fst (load_assignees rt eng patent_id idx l a))
         (fst (load_assignees rt eng patent_id idx l b)) /\
  snd (load_assignees rt eng patent_id idx l a) = snd (load_assignees rt eng patent_id idx l b).
Proof.
  induction l as [| x rest IH]; intros idx a b Hp; simpl; [now split |].
  destruct (truthy x); simpl; [| now apply IH].
  destruct x; try now split.
  destruct (truthy (get fields "assignee_id")); simpl; [| now apply IH].
  destruct (execute_paired a b (UpsertAssignee (get fields "assignee_id")
              (get fields "assignee_name") (get fields "assignee_type")
              (json_dumps rt (JObj fields))) Hp) as (a1 & b1 & -> & -> & Hp1).
  destruct (execute_paired a1 b1 (LinkAssignee patent_id (get fields "assignee_id") idx) Hp1)
    as (a2 & b2 & -> & -> & Hp2).
  now apply IH.
Qed.

Lemma load_inventors_paired patent_id l : forall idx a b,
  paired a b ->
  paired (fst (load_inventors rt eng patent_id idx l a))
         (fst (load_inventors rt eng patent_id idx l b)) /\
  snd (load_inventors rt eng patent_id idx l a) = snd (load_inventors rt eng patent_id idx l b).
Proof.
  induction l as [| x rest IH]; intros idx a b Hp; simpl; [now split |].
  destruct (truthy x); simpl; [| now apply IH].
  destruct x; try now split.
  destruct (truthy (get fields "inventor_id")); simpl; [| now apply IH].
  destruct (execute_paired a b (UpsertInventor (get fields "inventor_id")
              (get fields "inventor_name") (json_dumps rt (JObj fields))) Hp)
    as (a1 & b1 & -> & -> & Hp1).
  destruct (execute_paired a1 b1 (LinkInventor patent_id (get fields "inventor_id") idx) Hp1)
    as (a2 & b2 & -> & -> & Hp2).
  now apply IH.
Qed.

Lemma load_record_paired patent a b :
  paired a b ->
  paired (fst (load_record rt eng patent a)) (fst (load_record rt eng patent b)) /\
  snd (load_record rt eng patent a) = snd (load_record rt eng patent b).
Proof.
  intros Hp. unfold load_record.
  destruct (truthy (get patent "patent_id")); simpl; [| now split].
  destruct (execute_paired a b (patent_stmt rt patent) Hp) as (a1 & b1 & -> & -> & Hp1).
  destruct (load_assignees_paired (get patent "patent_id") (as_list patent "assignees")
              0 a1 b1 Hp1) as [Hp2 He2].
  destruct (load_assignees rt eng _ 0 _ a1) as [a2 ea];
    destruct (load_assignees rt eng _ 0 _ b1) as [b2 eb]; simpl in Hp2, He2; subst eb.
  destruct ea as [e |]; [now split |].
  destruct (load_inventors_paired (get patent "patent_id") (as_list patent "inventors")
              0 a2 b2 Hp2) as [Hp3 He3].
  destruct (load_inventors rt eng _ 0 _ a2) as [a3 ea];
    destruct (load_inventors rt eng _ 0 _ b2) as [b3 eb]; simpl in Hp3, He3; subst eb.
  destruct ea as [e |]; now split.
Qed.

Lemma load_loop_paired batch : forall a b st,
  paired a b ->
  paired (fst (load_loop rt eng batch a st)) (fst (load_loop rt eng batch b st)) /\
  snd (load_loop rt eng batch a st) = snd (load_loop rt eng batch b st).
Proof.
  induction batch as [| p rest IH]; intros a b st Hp; simpl; [now split |].
  destruct (load_record_paired p a b Hp) as [Hp1 Ho].
  destruct (load_record rt eng p a) as [a1 oa]; destruct (load_record rt eng p b) as [b1 ob].
  simpl in Hp1, Ho. subst ob. now apply IH.
Qed.

Lemma load_patents_paired now now' s s' batch :
  Q s s' ->
  Q (snd (load_patents rt eng now s batch)) (snd (load_patents rt eng now' s' batch)) /\
  fst (load_patents rt eng now s batch) = fst (load_patents rt eng now' s' batch).
Proof.
  intros HQ. unfold load_patents.
  destruct (load_loop_paired batch (begin now s) (begin now' s') stats0) as [Hp Hst];
    [now repeat split |].
  destruct (load_loop rt eng batch (begin now s) stats0) as [a st];
    destruct (load_loop rt eng batch (begin now' s') stats0) as [b st'].
  simpl in *. destruct Hp as (Ha & Hb & Hw). unfold commit.
  now rewrite Ha, Hb, !andb_false_r.
Qed.

End Lockstep.

(** The keys of the five tables of [b] are among those of [c] or [a]. *)
Definition keys_within (c a b : Store) : Prop :=
  dom (patents b) ⊆ dom (patents c) ∪ dom (patents a) /\
  dom (assignees b) ⊆ dom (assignees c) ∪ dom (assignees a) /\
  dom (inventors b) ⊆ dom (inventors c) ∪ dom (inventors a) /\
  dom (patent_assignees b) ⊆ dom (patent_assignees c) ∪ dom (patent_assignees a) /\
  dom (patent_inventors b) ⊆ dom (patent_inventors c) ∪ dom (patent_inventors a).

Lemma dom_upsert_patent eng now tbl pid pn pd fd ttl abs ncl cpc cpcs cit raw :
  dom (upsert_patent eng now tbl pid pn pd fd ttl abs ncl cpc cpcs cit raw) = {[pid]} ∪ dom tbl.
Proof. unfold upsert_patent. destruct (tbl !! pid); apply dom_insert_L. Qed.

Lemma dom_upsert_entity eng now tbl id name type raw :
  dom (upsert_entity eng now tbl id name type raw) = {[id]} ∪ dom tbl.
Proof. unfold upsert_entity. destruct (tbl !! id); apply dom_insert_L. Qed.

Lemma dom_insert_link (tbl : gmap (json * json) Z) pid eid pos :
  dom (insert_link tbl pid eid pos) = {[(pid, eid)]} ∪ dom tbl.
Proof.
  unfold insert_link. destruct (tbl !! (pid, eid)) eqn:E; [| apply dom_insert_L].
  apply set_eq. intros x. rewrite elem_of_union, elem_of_singleton. split; [tauto |].
  intros [-> | H]; [| exact H]. apply elem_of_dom. now rewrite E.
Qed.

Lemma grow_both `{Countable K} (k : K) (C A B : gset K) :
  B ⊆ C ∪ A -> {[k]} ∪ B ⊆ C ∪ ({[k]} ∪ A).
Proof.
  intros HB x. rewrite !elem_of_union. intros [Hx | Hx]; [tauto |].
  apply HB in Hx. rewrite elem_of_union in Hx. tauto.
Qed.

Lemma apply_stmt_keys_within eng c now now' a b st :
  keys_within c a b -> keys_within c (apply_stmt eng now a st) (apply_stmt eng now' b st).
Proof.
  intros (Hp & Ha & Hi & Hl & Hm).
  destruct st; (split; [| split; [| split; [| split]]]); simpl;
    rewrite ?dom_upsert_patent, ?dom_upsert_entity, ?dom_insert_link;
    try assumption; now apply grow_both.
Qed.

(** X5.  With an engine that rejects no statement, the statistics a
    load returns are a function of the batch alone: they are the same
    whatever the store holds and whenever the load runs, so that
    records loaded a second time are counted as inserted again. *)
Theorem load_statistics_depend_on_the_batch_alone
    (rt : Runtime) (eng : Engine) (now now' : Q) (s s' : Store)
    (batch : list (list (string * json))) :
  accepts_all eng ->
  fst (load_patents rt eng now s batch) = fst (load_patents rt eng now' s' batch).
Proof.
  intros Hacc.
  now apply (load_patents_paired rt eng (fun _ _ => True) Hacc).
Qed.

Lemma load_statistics_depend_on_the_batch_alone_witness :
  let batch := [patent "A" "a"; [("patent_title", JStr "t")];
                [("patent_id", JStr "B"); ("inventors", JList [JNum 1])]]%string in
  let s1 := snd (load_patents runtime (accepting true) 1 empty_store batch) in
  fst (load_patents runtime (accepting true) 1 empty_store batch) =
    mkLoadStats 1 0 1 [AttributeError (JNum 1)] /\
  fst (load_patents runtime (accepting true) 2 s1 batch) =
    fst (load_patents runtime (accepting true) 1 empty_store batch).
Proof.
  intros batch s1. split; [reflexivity |].
  apply (load_statistics_depend_on_the_batch_alone runtime (accepting true) 2 1 s1
           empty_store batch).
  intros s0 st. reflexivity.
Defined.

(** X6.  Loading is idempotent on the rows there are: with an engine
    that rejects no statement, loading a batch again, at any later
    instant, adds no row to any of the five tables and removes none. *)
Theorem loading_a_batch_again_adds_no_row
    (rt : Runtime) (eng : Engine) (now now' : Q) (s : Store)
    (batch : list (list (string * json))) :
  accepts_all eng ->
  let s1 := snd (load_patents rt eng now s batch) in
  let s2 := snd (load_patents rt eng now' s1 batch) in
  dom (patents s2) = dom (patents s1) /\
  dom (assignees s2) = dom (assignees s1) /\
  dom (inventors s2) = dom (inventors s1) /\
  dom (patent_assignees s2) = dom (patent_assignees s1) /\
  dom (patent_inventors s2) = dom (patent_inventors s1).
Proof.
  intros Hacc s1 s2.
  destruct (load_patents_paired rt eng (keys_within s1) Hacc
              (apply_stmt_keys_within eng s1) now now' s s1 batch) as [Hin _].
  { unfold keys_within. repeat split; apply union_subseteq_l. }
  fold s1 s2 in Hin. destruct Hin as (Hp & Ha & Hi & Hl & Hm).
  assert (extends s1 s2) as (Ep & Ea & Ei & El & Em).
  { apply (load_patents_R rt eng extends (fun _ => True)); auto.
    - apply extends_refl.
    - apply extends_trans.
    - intros n0 s0 st _. apply apply_stmt_extends. }
  rewrite union_idemp_L in Hp. rewrite union_idemp_L in Ha. rewrite union_idemp_L in Hi.
  rewrite union_idemp_L in Hl. rewrite union_idemp_L in Hm.
  split; [| split; [| split; [| split]]]; apply (anti_symm (⊆)); try assumption.
  - intros k Hk. apply elem_of_dom in Hk as [r Hr].
    destruct (Ep k r Hr) as (r' & Hr' & _). apply elem_of_dom. eauto.
  - intros k Hk. apply elem_of_dom in Hk as [r Hr].
    destruct (Ea k r Hr) as (r' & Hr' & _). apply elem_of_dom. eauto.
  - intros k Hk. apply elem_of_dom in Hk as [r Hr].
    destruct (Ei k r Hr) as (r' & Hr' & _). apply elem_of_dom. eauto.
  - now apply subseteq_dom.
  - now apply subseteq_dom.
Qed.

Lemma loading_a_batch_again_adds_no_row_witness :
  let batch := [[("patent_id", JStr "A");
                 ("assignees", JList [JObj [("assignee_id", JStr "x")]])];
                patent "B" "b"]%string in
  let s1 := snd (load_patents runtime (accepting true) 1 empty_store batch) in
  let s2 := snd (load_patents runtime (accepting true) 2 s1 batch) in
  dom (patents s2) = dom (patents s1) /\
  dom (assignees s2) = dom (assignees s1) /\
  dom (inventors s2) = dom (inventors s1) /\
  dom (patent_assignees s2) = dom (patent_assignees s1) /\
  dom (patent_inventors s2) = dom (patent_inventors s1).
Proof.
  intros batch.
  apply (loading_a_batch_again_adds_no_row runtime (accepting true) 1 2 empty_store batch).
  intros s0 st. reflexivity.
Defined.

(** What [MAX(publication_date)] is over a table: nothing when no
    row has a date, otherwise a date that some row has and that no
    row exceeds. *)
Definition is_max_date (tbl : gmap json PatentRow) (res : option Time) : Prop :=
  match res with
  | None => forall id r, tbl !! id = Some r -> publication_date r = None
  | Some d =>
      (exists id r, tbl !! id = Some r /\ publication_date r = Some d) /\
      (forall id r d', tbl !! id = Some r -> publication_date r = Some d' -> (d' <= d)%Q)
  end.

Lemma fold_max_date (tbl : gmap json PatentRow) :
  is_max_date tbl
    (map_fold (fun _ row acc => max_date (publication_date row) acc) None tbl).
Proof.
  apply (map_fold_weak_ind (fun res m => is_max_date m res)).
  - intros id r Hr. now rewrite lookup_empty in Hr.
  - intros i x m res Hfresh IH. unfold max_date.
    destruct (publication_date x) as [dx |] eqn:Hx; destruct res as [d |]; simpl in *.
    + destruct IH as [(j & r & Hj & Hd) Hle].
      assert (i <> j) as Hij by (intros ->; congruence).
      destruct (Qle_bool dx d) eqn:Hcmp.
      * apply Qle_bool_iff in Hcmp. split.
        -- exists j, r. now rewrite lookup_insert_ne.
        -- intros k rk d' Hk Hd'. destruct (decide (i = k)) as [-> | Hne].
           ++ rewrite lookup_insert_eq in Hk. injection Hk as <-. congruence.
           ++ rewrite lookup_insert_ne in Hk by exact Hne. eauto.
      * assert (d < dx)%Q as Hlt.
        { apply Qnot_le_lt. intros Hc. apply Qle_bool_iff in Hc. congruence. }
        split.
        -- exists i, x. now rewrite lookup_insert_eq.
        -- intros k rk d' Hk Hd'. destruct (decide (i = k)) as [-> | Hne].
           ++ rewrite lookup_insert_eq in Hk. injection Hk as <-.
              assert (d' = dx) as -> by congruence. apply Qle_refl.
           ++ rewrite lookup_insert_ne in Hk by exact Hne.
              apply Qle_trans with d; [eauto | now apply Qlt_le_weak].
    + split.
      * exists i, x. now rewrite lookup_insert_eq.
      * intros k rk d' Hk Hd'. destruct (decide (i = k)) as [-> | Hne].
        -- rewrite lookup_insert_eq in Hk. injection Hk as <-.
           assert (d' = dx) as -> by congruence. apply Qle_refl.
        -- rewrite lookup_insert_ne in Hk by exact Hne. specialize (IH k rk Hk). congruence.
    + destruct IH as [(j & r & Hj & Hd) Hle].
      assert (i <> j) as Hij by (intros ->; congruence).
      split.
      * exists j, r. now rewrite lookup_insert_ne.
      * intros k rk d' Hk Hd'. destruct (decide (i = k)) as [-> | Hne].
        -- rewrite lookup_insert_eq in Hk. injection Hk as <-. congruence.
        -- rewrite lookup_insert_ne in Hk by exact Hne. eauto.
    + intros k rk Hk. destruct (decide (i = k)) as [-> | Hne].
      * rewrite lookup_insert_eq in Hk. now injection Hk as <-.
      * rewrite lookup_insert_ne in Hk by exact Hne. eauto.
Qed.

(** X7.  [get_last_ingestion_date] returns nothing exactly when no
    stored patent has a publication date (the empty table included);
    otherwise it returns a publication date that some stored patent
    has and that none exceeds. *)
Theorem last_ingestion_date_is_the_greatest_publication_date (s : Store) :
  is_max_date (patents s) (get_last_ingestion_date s).
Proof. apply fold_max_date. Qed.

(** X8.  The watermark never moves back: if [get_last_ingestion_date]
    returns a date before a load, it returns a date at least as late
    after it, whatever the batch and the engine, since a load neither
    deletes a patent nor changes a stored publication date. *)
Theorem load_never_lowers_the_last_ingestion_date
    (rt : Runtime) (eng : Engine) (now : Q) (s : Store) (batch : list (list (string * json)))
    (d : Q) :
  get_last_ingestion_date s = Some d ->
  exists d', get_last_ingestion_date (snd (load_patents rt eng now s batch)) = Some d' /\
             (d <= d')%Q.
Proof.
  intros Hd. pose proof (fold_max_date (patents s)) as Hs.
  fold (get_last_ingestion_date s) in Hs. rewrite Hd in Hs.
  destruct Hs as [(id & r & Hr & Hdate) _].
  assert (extends s (snd (load_patents rt eng now s batch))) as (Ep & _).
  { apply (load_patents_R rt eng extends (fun _ => True)); auto.
    - apply extends_refl.
    - apply extends_trans.
    - intros n0 s0 st _. apply apply_stmt_extends. }
  destruct (Ep id r Hr) as (r' & Hr' & _ & Hsame & _).
  pose proof (fold_max_date (patents (snd (load_patents rt eng now s batch)))) as Hs'.
  fold (get_last_ingestion_date (snd (load_patents rt eng now s batch))) in Hs'.
  destruct (get_last_ingestion_date (snd (load_patents rt eng now s batch))) as [d' |].
  - exists d'. split; [reflexivity |]. destruct Hs' as [_ Hle].
    apply (Hle id r' d Hr'). congruence.
  - specialize (Hs' id r' Hr'). congruence.
Qed.

Lemma load_never_lowers_the_last_ingestion_date_witness :
  let row := mkPatentRow (JStr "USA") (Some (inject_Z (100 * 86400))) None (JStr "a") JNull
               JNull None [] 0 EmptyString 0%Q None in
  let s := mkStore {[JStr "A" := row]} ∅ ∅ ∅ ∅ in
  let batch := [[("patent_id", JStr "B"); ("patent_date", JNum 120)];
                [("patent_id", JStr "A"); ("patent_date", JNum 130)]]%string in
  exists d', get_last_ingestion_date (snd (load_patents runtime (accepting true) 5 s batch))
             = Some d' /\ (inject_Z (100 * 86400) <= d')%Q.
Proof.
  intros row s batch.
  apply (load_never_lowers_the_last_ingestion_date runtime (accepting true) 5 s batch).
  vm_compute. reflexivity.
Defined.

End LoaderMore.

(* ===================================================================== *)
(** ** More on the client: division by zero, and how long the limiter sleeps *)
(* ===================================================================== *)

Module ClientMore.
Import Json Db World Client ClientProps.
Local Open Scope world_scope.

(** The parameters [fetch_patents] builds for one request. *)
Definition built_from (self : PatentsViewClient) (limit offset : Z) (r : Request) : Prop :=
  o_per_page r = limit /\ o_page r = offset / limit + 1 /\
  key r = match api_key self with
          | Some k => if String.eqb k "" then None else Some k
          | None => None
          end.

(** A call adds at most [n] requests. *)
Definition sends_at_most {A} (n : nat) (m : M A) : Prop :=
  forall w, exists new, sent (snd (m w)) = sent w ++ new /\ (length new <= n)%nat.

(** A call leaves the store as it is. *)
Definition keeps_store {A} (m : M A) : Prop :=
  forall w, store (snd (m w)) = store w.

Section Facts.
Variable env : Surroundings.
Variable self : PatentsViewClient.

Lemma sends_weaken {A} (P P' : Request -> Prop) (m : M A) :
  (forall r, P r -> P' r) -> sends P m -> sends P' m.
Proof.
  intros Himp Hm w. destruct (Hm w) as (new & Hs & Hf). exists new. split; [exact Hs |].
  eapply Forall_impl; [exact Hf |]. intros r. apply Himp.
Qed.

Lemma fetch_once_built since limit offset :
  sends (built_from self limit offset) (fetch_once env self since limit offset).
Proof.
  intros w. unfold fetch_once, _rate_limit, bind, time_time, get_last_request_time,
    set_last_request_time, sleep, ret, raise, http_get, lift. simpl.
  destruct (Qeq_bool _ 0); simpl; [exists []; now rewrite app_nil_r |].
  destruct (Qlt_le_dec 0 _); destruct since; simpl; (destruct (limit =? 0); simpl;
    [exists []; now rewrite app_nil_r |
     eexists; split; [reflexivity |]; now repeat constructor]).
Qed.

Lemma fetch_once_at_most since limit offset :
  sends_at_most 1 (fetch_once env self since limit offset).
Proof.
  intros w. unfold fetch_once, _rate_limit, bind, time_time, get_last_request_time,
    set_last_request_time, sleep, ret, raise, http_get, lift. simpl.
  destruct (Qeq_bool _ 0); simpl; [exists []; rewrite app_nil_r; split; [easy | simpl; lia] |].
  destruct (Qlt_le_dec 0 _); destruct since; simpl; (destruct (limit =? 0); simpl;
    [exists []; rewrite app_nil_r; split; [easy | simpl; lia] |
     eexists; split; [reflexivity | simpl; lia]]).
Qed.

Lemma fetch_once_keeps_store since limit offset :
  keeps_store (fetch_once env self since limit offset).
Proof.
  intros w. unfold fetch_once, _rate_limit, bind, time_time, get_last_request_time,
    set_last_request_time, sleep, ret, raise, http_get, lift. simpl.
  destruct (Qeq_bool _ 0); simpl; [reflexivity |].
  destruct (Qlt_le_dec 0 _); destruct since; simpl; destruct (limit =? 0); reflexivity.
Qed.

Lemma on_exception_at_most {A} (target : M A) factor :
  sends_at_most 1 target ->
  forall remaining n, sends_at_most (S remaining) (on_exception env remaining n factor target).
Proof.
  intros Ht. induction remaining as [| remaining IH]; intros n w.
  - rewrite on_exception_last. apply Ht.
  - simpl. destruct (Ht w) as (new1 & Hs1 & Hl1).
    destruct (target w) as [[a | [re | |]] w1]; simpl in *;
      try (exists new1; split; [exact Hs1 | lia]).
    unfold bind, draw_jitter, sleep. simpl.
    destruct (IH (S n) (mkWorld (clock w1 + jitter env (length (slept w1)) (expo factor n))
                          (reads w1) (last_request_time w1) (sent w1)
                          (slept w1 ++ [jitter env (length (slept w1)) (expo factor n)])
                          (store w1))) as (new2 & Hs2 & Hl2).
    simpl in Hs2. exists (new1 ++ new2).
    rewrite Hs2, Hs1, <- app_assoc. split; [reflexivity |]. rewrite length_app. lia.
Qed.

Lemma on_exception_keeps_store {A} (target : M A) factor :
  keeps_store target ->
  forall remaining n, keeps_store (on_exception env remaining n factor target).
Proof.
  intros Ht. induction remaining as [| remaining IH]; intros n w.
  - rewrite on_exception_last. apply Ht.
  - simpl. pose proof (Ht w) as H1.
    destruct (target w) as [[a | [re | |]] w1]; simpl in *; try exact H1.
    unfold bind, draw_jitter, sleep. simpl.
    rewrite (IH (S n) (mkWorld (clock w1 + jitter env (length (slept w1)) (expo factor n))
                          (reads w1) (last_request_time w1) (sent w1)
                          (slept w1 ++ [jitter env (length (slept w1)) (expo factor n)])
                          (store w1))).
    exact H1.
Qed.

End Facts.

(** X9.  A client whose rate is 0, or a page size of 0, makes
    [fetch_patents] raise [ZeroDivisionError]: the exception is not one
    the decorator retries, so the call is its one attempt; no request
    is sent and the store is untouched; and with a rate of 0 nothing
    was slept and the stamp of the last request is not set. *)
Theorem division_by_zero_is_raised_without_a_request
    (env : Surroundings) (self : PatentsViewClient) (since : option Q) (limit offset : Z)
    (w : world) :
  Qeq_bool (rate_limit_per_sec self) 0 = true \/ limit = 0 ->
  let res := fetch_patents env self since limit offset w in
  res = fetch_once env self since limit offset w /\
  fst res = Err ZeroDivisionError /\
  sent (snd res) = sent w /\ store (snd res) = store w /\
  (Qeq_bool (rate_limit_per_sec self) 0 = true ->
   slept (snd res) = slept w /\ last_request_time (snd res) = last_request_time w).
Proof.
  intros Hzero.
  assert (exists w1, fetch_once env self since limit offset w = (Err ZeroDivisionError, w1) /\
            sent w1 = sent w /\ store w1 = store w /\
            (Qeq_bool (rate_limit_per_sec self) 0 = true ->
             slept w1 = slept w /\ last_request_time w1 = last_request_time w)) as Honce.
  { unfold fetch_once, _rate_limit, bind, time_time, get_last_request_time,
      set_last_request_time, sleep, ret, raise, http_get, lift. simpl.
    destruct (Qeq_bool (rate_limit_per_sec self) 0) eqn:Hrate; simpl.
    - eexists. split; [reflexivity |]. simpl. now repeat split.
    - destruct Hzero as [Hr | ->]; [discriminate |].
      destruct (Qlt_le_dec 0 _); destruct since; simpl;
        (eexists; split; [reflexivity |]; simpl; repeat split; discriminate). }
  destruct Honce as (w1 & Honce & Hsent & Hstore & Hquiet).
  intros res.
  assert (res = (Err ZeroDivisionError, w1)) as Hres.
  { unfold res, fetch_patents. cbn [max_tries Nat.sub on_exception]. now rewrite Honce. }
  rewrite Hres, Honce. cbn [fst snd].
  split; [reflexivity |]. split; [reflexivity |]. split; [exact Hsent |].
  split; [exact Hstore | exact Hquiet].
Qed.

Lemma division_by_zero_is_raised_without_a_request_witness :
  let env := mkSurroundings (fun _ _ => Responded 200 []) (fun _ => 0%Q) (fun _ v => v) in
  let w := mkWorld 1000 0 0 [] [] empty_store in
  let res := fetch_patents env (mkClient None 0 3 30) None 1000 0 w in
  res = fetch_once env (mkClient None 0 3 30) None 1000 0 w /\
  fst res = Err ZeroDivisionError /\
  sent (snd res) = sent w /\ store (snd res) = store w /\
  (Qeq_bool 0 0 = true ->
   slept (snd res) = slept w /\ last_request_time (snd res) = last_request_time w).
Proof.
  intros env w.
  apply (division_by_zero_is_raised_without_a_request env (mkClient None 0 3 30) None 1000 0 w).
  left. reflexivity.
Defined.

(** X10.  The limiter sleeps at most once per call and never longer
    than one interval [1/R]; it does not sleep at all when an interval
    has passed since the last request.  The rate is positive, the
    stamp of the last request is not in the future and the clock does
    not run backwards. *)
Theorem limiter_sleeps_at_most_one_interval
    (env : Surroundings) (self : PatentsViewClient) (w : world) :
  (0 < rate_limit_per_sec self)%Q ->
  (0 <= lag env (reads w))%Q ->
  (last_request_time w <= clock w)%Q ->
  exists more,
    slept (snd (_rate_limit env self w)) = slept w ++ more /\
    (length more <= 1)%nat /\
    Forall (fun d => 0 < d /\ d <= 1 / rate_limit_per_sec self)%Q more /\
    ((1 / rate_limit_per_sec self <= clock w - last_request_time w)%Q -> more = []).
Proof.
  intros Hpos Hlag Hstamp.
  assert (Qeq_bool (rate_limit_per_sec self) 0 = false) as Hrate.
  { destruct (Qeq_bool _ 0) eqn:E; [| reflexivity].
    apply Qeq_bool_iff in E. rewrite E in Hpos. now apply Qlt_irrefl in Hpos. }
  unfold _rate_limit, bind, time_time, get_last_request_time, set_last_request_time,
    sleep, ret. simpl. rewrite Hrate.
  set (x := (1 / rate_limit_per_sec self)%Q) in *.
  destruct (Qlt_le_dec 0 _) as [Hwait | Hwait]; simpl.
  - exists [(x - (clock w + lag env (reads w) - last_request_time w))%Q].
    split; [reflexivity |]. split; [simpl; lia |]. split.
    + constructor; [| constructor]. clearbody x. split; lra.
    + intros Hfar. exfalso. clearbody x. lra.
  - exists []. rewrite app_nil_r. repeat split; [simpl; lia | constructor].
Qed.

Lemma limiter_sleeps_at_most_one_interval_witness :
  let env := mkSurroundings (fun _ _ => TimedOut) (fun _ => 1 # 10) (fun _ v => v) in
  let self := mkClient None 2 3 30 in
  let w := mkWorld 100 0 (999 # 10) [] [] empty_store in
  exists more,
    slept (snd (_rate_limit env self w)) = slept w ++ more /\
    (length more <= 1)%nat /\
    Forall (fun d => 0 < d /\ d <= 1 / 2)%Q more /\
    ((1 / 2 <= 100 - (999 # 10))%Q -> more = []).
Proof.
  intros env self w.
  apply (limiter_sleeps_at_most_one_interval env self w); vm_compute; congruence.
Defined.

End ClientMore.

(* ===================================================================== *)
(** ** More on the ingestion run: its requests, its totals, its store *)
(* ===================================================================== *)

Module IngestMore.
Import Json Db World Client Ingest Examples ClientProps LoaderProps LoaderMore ClientMore.
Local Open Scope world_scope.

(** A request of a run: a full page size, one of the pages under
    the cap, the key only when one is set. *)
Definition well_shaped (api_key : option string) (r : Request) : Prop :=
  o_per_page r = batch_size /\ 1 <= o_page r <= max_batches /\
  key r = match api_key with
          | Some k => if String.eqb k "" then None else Some k
          | None => None
          end.

(** Totals a run can report. *)
Definition sound_totals (all : AllStats) : Prop :=
  total_updated all = 0 /\ 0 <= total_inserted all /\ 0 <= total_errors all /\
  0 <= batches_processed all /\
  (batches_processed all = 0 -> total_inserted all = 0 /\ total_errors all = 0).

Section Run.
Variable env : Surroundings.
Variable rt : Loader.Runtime.
Variable eng : Engine.
Variable client : PatentsViewClient.
Variable since : Q.

Lemma load_spec patents_data w :
  let now := (clock w + lag env (reads w))%Q in
  load env rt eng patents_data w =
    (Ok (fst (Loader.load_patents rt eng now (store w) patents_data)),
     mkWorld now (S (reads w)) (last_request_time w) (sent w) (slept w)
       (snd (Loader.load_patents rt eng now (store w) patents_data))).
Proof.
  unfold load, bind, time_time, get_store, put_store, ret. simpl.
  now destruct (Loader.load_patents _ _ _ _ _).
Qed.

Lemma sends_at_most_nothing {A} (m : M A) n :
  (forall w, sent (snd (m w)) = sent w) -> sends_at_most n m.
Proof. intros H w. exists []. rewrite app_nil_r. split; [apply H | simpl; lia]. Qed.

Lemma sends_at_most_bind {A B} (m : M A) (k : A -> M B) a b :
  sends_at_most a m -> (forall x, sends_at_most b (k x)) -> sends_at_most (a + b) (bind m k).
Proof.
  intros Hm Hk w. unfold bind. destruct (Hm w) as (new1 & Hs1 & Hl1).
  destruct (m w) as [[x | e] w1]; simpl in *.
  - destruct (Hk x w1) as (new2 & Hs2 & Hl2). exists (new1 ++ new2).
    rewrite Hs2, Hs1, <- app_assoc. split; [reflexivity |]. rewrite length_app. lia.
  - exists new1. split; [exact Hs1 | lia].
Qed.

Lemma sends_at_most_weaken {A} (m : M A) a b :
  (a <= b)%nat -> sends_at_most a m -> sends_at_most b m.
Proof.
  intros Hab Hm w. destruct (Hm w) as (new & Hs & Hl). exists new. split; [exact Hs | lia].
Qed.

Lemma load_sends_nothing patents_data w :
  sent (snd (load env rt eng patents_data w)) = sent w.
Proof. now rewrite load_spec. Qed.

(** Every request of the loop is well shaped. *)
Lemma ingest_loop_shape fuel : forall offset all,
  0 <= offset ->
  sends (well_shaped (api_key client)) (ingest_loop env rt eng fuel client since offset all).
Proof.
  induction fuel as [| fuel IH]; intros offset all Hoff; cbn [ingest_loop];
    [now apply sends_nothing |].
  destruct (offset <? max_batches * batch_size) eqn:Hcap; [| now apply sends_nothing].
  apply Z.ltb_lt in Hcap.
  apply sends_bind.
  - apply on_exception_sends.
    apply (sends_weaken (built_from client batch_size offset)); [| apply fetch_once_built].
    intros r (Hsize & Hpage & Hkey). split; [exact Hsize |]. split; [| exact Hkey].
    rewrite Hpage. unfold batch_size, max_batches in *.
    assert (0 <= offset / 1000) by (apply Z.div_pos; lia).
    assert (offset / 1000 < 10) by (apply Z.div_lt_upper_bound; lia).
    lia.
  - intros response.
    destruct (truthy (get response "patents")); cbn [negb]; [| now apply sends_nothing].
    destruct (records_of (get response "patents")) as [patents_data |];
      [| now apply sends_nothing].
    apply sends_bind.
    + apply sends_nothing. apply load_sends_nothing.
    + intros stats. destruct (Z.of_nat (length patents_data) <? batch_size);
        [now apply sends_nothing |]. apply IH. unfold batch_size. lia.
Qed.

(** With at most [n] pages left under the cap the loop sends at most
    [max_tries * n] requests. *)
Lemma ingest_loop_at_most fuel : forall (n : nat) offset all,
  max_batches * batch_size - Z.of_nat n * batch_size <= offset ->
  sends_at_most (max_tries * n) (ingest_loop env rt eng fuel client since offset all).
Proof.
  induction fuel as [| fuel IH]; intros n offset all Hleft; cbn [ingest_loop];
    [now apply sends_at_most_nothing |].
  destruct (offset <? max_batches * batch_size) eqn:Hcap; [| now apply sends_at_most_nothing].
  apply Z.ltb_lt in Hcap.
  destruct n as [| n]; [unfold batch_size, max_batches in *; lia |].
  apply (sends_at_most_weaken _ (max_tries + max_tries * n)); [unfold max_tries; lia |].
  apply sends_at_most_bind.
  - apply (on_exception_at_most env _ 2 (fetch_once_at_most env client _ _ _) 2 0).
  - intros response.
    destruct (truthy (get response "patents")); cbn [negb];
      [| now apply sends_at_most_nothing].
    destruct (records_of (get response "patents")) as [patents_data |];
      [| now apply sends_at_most_nothing].
    apply (sends_at_most_bind _ _ 0).
    + apply sends_at_most_nothing. apply load_sends_nothing.
    + intros stats. destruct (Z.of_nat (length patents_data) <? batch_size);
        [now apply sends_at_most_nothing |]. apply IH. unfold batch_size, max_batches in *. lia.
Qed.

Lemma add_stats_sound all patents_data now s :
  sound_totals all ->
  sound_totals (add_stats all (fst (Loader.load_patents rt eng now s patents_data))).
Proof.
  intros (Hu & Hi & He & Hb & _). unfold Loader.load_patents.
  destruct (load_loop_stats rt eng patents_data (begin now s) Loader.stats0) as (Su & Si & Se).
  destruct (Loader.load_loop rt eng patents_data (begin now s) Loader.stats0) as [t st].
  simpl in *. unfold sound_totals. simpl. rewrite Su, Si, Se. repeat split; lia.
Qed.

(** The totals the loop returns are sound when those it starts from are. *)
Lemma ingest_loop_totals fuel : forall offset all w a,
  sound_totals all ->
  fst (ingest_loop env rt eng fuel client since offset all w) = Ok (Some a) ->
  sound_totals a.
Proof.
  induction fuel as [| fuel IH]; intros offset all w a Hall; cbn [ingest_loop];
    [discriminate |].
  destruct (offset <? max_batches * batch_size); [| now intros [= <-]].
  unfold bind.
  destruct (fetch_patents env client (Some since) batch_size offset w) as [[response | e] w1];
    [| discriminate].
  destruct (truthy (get response "patents")); cbn [negb]; [| now intros [= <-]].
  destruct (records_of (get response "patents")) as [patents_data |]; [| discriminate].
  rewrite load_spec.
  destruct (Z.of_nat (length patents_data) <? batch_size).
  - intros [= <-]. now apply add_stats_sound.
  - apply IH. now apply add_stats_sound.
Qed.

(** The loop never takes a row out of the store. *)
Lemma ingest_loop_extends fuel : forall offset all w,
  extends (store w) (store (snd (ingest_loop env rt eng fuel client since offset all w))).
Proof.
  induction fuel as [| fuel IH]; intros offset all w; cbn [ingest_loop];
    [apply extends_refl |].
  destruct (offset <? max_batches * batch_size); [| apply extends_refl].
  unfold bind.
  pose proof (on_exception_keeps_store env _ 2
                (fetch_once_keeps_store env client (Some since) batch_size offset) 2 0 w)
    as Hfetch.
  change (on_exception env 2 0 2 (fetch_once env client (Some since) batch_size offset))
    with (fetch_patents env client (Some since) batch_size offset) in Hfetch.
  destruct (fetch_patents env client (Some since) batch_size offset w) as [[response | e] w1];
    cbn [snd] in *; [| rewrite Hfetch; apply extends_refl].
  destruct (truthy (get response "patents")); cbn [negb];
    [| unfold ret; cbn [snd]; rewrite Hfetch; apply extends_refl].
  destruct (records_of (get response "patents")) as [patents_data |];
    [| unfold raise; cbn [snd]; rewrite Hfetch; apply extends_refl].
  rewrite load_spec.
  set (now := (clock w1 + lag env (reads w1))%Q).
  assert (extends (store w) (snd (Loader.load_patents rt eng now (store w1) patents_data)))
    as Hload.
  { rewrite <- Hfetch. apply (load_patents_R rt eng extends (fun _ => True)); auto.
    - apply extends_refl.
    - apply extends_trans.
    - intros n0 s0 st _. apply apply_stmt_extends. }
  destruct (Z.of_nat (length patents_data) <? batch_size).
  - unfold ret. cbn [snd store]. exact Hload.
  - eapply extends_trans; [exact Hload |].
    match goal with |- extends _ (store (snd (ingest_loop _ _ _ _ _ _ ?o ?a ?w'))) =>
      exact (IH o a w') end.
Qed.

End Run.

(** X11.  Every request of an ingestion run asks for a page of
    [batch_size] (1000) records, for one of the pages 1 to
    [max_batches] (10), and carries the API key exactly when a
    non-empty one was given. *)
Theorem every_request_of_a_run_is_a_full_page_under_the_cap
    (env : Surroundings) (rt : Loader.Runtime) (eng : Engine)
    (api_key : option string) (since_days : Z) (w : world) :
  exists new : list (Q * Request),
    sent (snd (ingest_patents env rt eng api_key since_days w)) = sent w ++ new /\
    Forall (fun r => well_shaped api_key (snd r)) new.
Proof.
  unfold ingest_patents, bind, set_last_request_time, time_time. cbn [fst snd].
  apply (ingest_loop_shape env rt eng (mkClient api_key 1 3 30)
           (since_of (clock w + lag env (reads w)) since_days)
           (S (Z.to_nat max_batches)) 0 (mkAllStats 0 0 0 0) (Z.le_refl 0)
           (mkWorld (clock w + lag env (reads w)) (S (reads w)) 0 (sent w) (slept w) (store w))).
Qed.

(** X12.  An ingestion run sends at most thirty requests: three
    tries for each of at most ten pages, whatever the server answers. *)
Theorem a_run_sends_at_most_thirty_requests
    (env : Surroundings) (rt : Loader.Runtime) (eng : Engine)
    (api_key : option string) (since_days : Z) (w : world) :
  exists new : list (Q * Request),
    sent (snd (ingest_patents env rt eng api_key since_days w)) = sent w ++ new /\
    (length new <= 30)%nat.
Proof.
  unfold ingest_patents, bind, set_last_request_time, time_time. cbn [fst snd].
  assert (max_batches * batch_size - Z.of_nat 10 * batch_size <= 0) as Hleft
    by (unfold max_batches, batch_size; lia).
  exact (ingest_loop_at_most env rt eng (mkClient api_key 1 3 30)
           (since_of (clock w + lag env (reads w)) since_days)
           (S (Z.to_nat max_batches)) 10 0 (mkAllStats 0 0 0 0) Hleft
           (mkWorld (clock w + lag env (reads w)) (S (reads w)) 0 (sent w) (slept w) (store w))).
Qed.

(** X13.  The totals of a run that returns: [total_updated] is 0,
    no count is negative, and a run that processed no batch reports
    nothing inserted and no error. *)
Theorem run_totals_never_report_an_update
    (env : Surroundings) (rt : Loader.Runtime) (eng : Engine)
    (api_key : option string) (since_days : Z) (w : world) (all : AllStats) :
  fst (ingest_patents env rt eng api_key since_days w) = Ok (Some all) ->
  sound_totals all.
Proof.
  unfold ingest_patents, bind, set_last_request_time, time_time. cbn [fst snd].
  apply ingest_loop_totals. unfold sound_totals. simpl. repeat split; lia.
Qed.

Lemma run_totals_never_report_an_update_witness :
  let page := [("patents", JList [JObj (patent "A" "a"); JObj [("patent_title", JStr "t")];
                                  JObj [("patent_id", JStr "B"); ("assignees", JNum 1)]])]%string in
  let env := mkSurroundings (fun _ _ => Responded 200 page) (fun _ => 0%Q) (fun _ v => v) in
  let w := mkWorld 1000 0 0 [] [] empty_store in
  fst (ingest_patents env runtime (accepting true) None 7 w) = Ok (Some (mkAllStats 1 0 1 1)) /\
  sound_totals (mkAllStats 1 0 1 1).
Proof.
  intros page env w.
  assert (fst (ingest_patents env runtime (accepting true) None 7 w)
          = Ok (Some (mkAllStats 1 0 1 1))) as Hrun by (vm_compute; reflexivity).
  split; [exact Hrun |].
  exact (run_totals_never_report_an_update env runtime (accepting true) None 7 w _ Hrun).
Defined.

(** X14.  An ingestion run, however it ends (totals returned, a
    fetch that raised after its retries, a page that is no list of
    records), deletes no row: every patent, assignee and inventor row
    stored before the run is stored after it with its fixed columns,
    and every link row with its position. *)
Theorem a_run_deletes_no_row
    (env : Surroundings) (rt : Loader.Runtime) (eng : Engine)
    (api_key : option string) (since_days : Z) (w : world) :
  extends (store w) (store (snd (ingest_patents env rt eng api_key since_days w))).
Proof.
  unfold ingest_patents, bind, set_last_request_time, time_time. cbn [fst snd].
  apply (ingest_loop_extends env rt eng (mkClient api_key 1 3 30)
           (since_of (clock w + lag env (reads w)) since_days)
           (S (Z.to_nat max_batches)) 0 (mkAllStats 0 0 0 0)
           (mkWorld (clock w + lag env (reads w)) (S (reads w)) 0 (sent w) (slept w) (store w))).
Qed.

End IngestMore.

(* ===================================================================== *)
(** ** More on the embedding scripts: batching, edge cases, stale points *)
(* ===================================================================== *)

Module EmbedMore.
Import Json Db Embed EmbedProps.

(** The patent ids of a selection and of the embeddings computed. *)
Definition selected_ids (patents : list (json * json * json)) : list json :=
  List.map (fun p => fst (fst p)) patents.

Definition embedded_ids (data : list Embedding) : list json := List.map e_patent_id data.

(** A model that answers every batch with one vector for each text. *)
Definition answers_fully (env : Env) : Prop :=
  forall texts, exists vs, encode env texts = Some vs /\ length vs = length texts.

Lemma chunks_fuel_spec {A} (n : nat) : (0 < n)%nat -> forall fuel (l : list A),
  (length l <= fuel)%nat ->
  concat (chunks_fuel fuel n l) = l /\
  Forall (fun b => (0 < length b <= n)%nat) (chunks_fuel fuel n l) /\
  (forall (i : nat) b, chunks_fuel fuel n l !! i = Some b ->
     (S i < length (chunks_fuel fuel n l))%nat -> length b = n).
Proof.
  intros Hn. induction fuel as [| fuel IH]; intros l Hl.
  - destruct l; [| simpl in Hl; lia]. simpl. repeat split; [constructor |].
    intros i b H. now rewrite lookup_nil in H.
  - destruct l as [| x l]; [simpl; repeat split; [constructor |];
      intros i b H; now rewrite lookup_nil in H |].
    cbn [chunks_fuel]. set (l0 := x :: l) in *.
    assert (length (drop n l0) <= fuel)%nat as Hdrop
      by (rewrite length_drop; unfold l0 in *; simpl in *; lia).
    destruct (IH (drop n l0) Hdrop) as (Hcat & Hall & Hfull).
    split; [| split].
    + cbn [concat]. rewrite Hcat. apply take_drop.
    + constructor; [| exact Hall]. rewrite length_take. unfold l0. simpl. lia.
    + intros [| i] b; cbn [lookup list_lookup length].
      * intros [= <-] Hmore. rewrite length_take.
        destruct (drop n l0) as [| y rest] eqn:Hd.
        { destruct fuel; simpl in Hmore; lia. }
        assert (length (drop n l0) = S (length rest)) as Hlen by now rewrite Hd.
        rewrite length_drop in Hlen. lia.
      * intros Hb Hmore. apply (Hfull i b Hb). simpl in Hmore. lia.
Qed.

Lemma batches_spec {A} (batch_size : Z) (l : list A) :
  0 < batch_size ->
  exists bs,
    batches batch_size l = Some bs /\
    concat bs = l /\
    Forall (fun b => 0 < Z.of_nat (length b) <= batch_size) bs /\
    (forall (i : nat) b, bs !! i = Some b -> (S i < length bs)%nat ->
       Z.of_nat (length b) = batch_size).
Proof.
  intros Hpos. unfold batches.
  assert ((batch_size =? 0) = false) as -> by (apply Z.eqb_neq; lia).
  assert ((batch_size <? 0) = false) as -> by (apply Z.ltb_ge; lia).
  eexists. split; [reflexivity |].
  destruct (chunks_fuel_spec (Z.to_nat batch_size) ltac:(lia) (length l) l (le_n _))
    as (Hcat & Hall & Hfull).
  split; [exact Hcat |]. split.
  - eapply Forall_impl; [exact Hall |]. intros b Hb. simpl in Hb. lia.
  - intros i b Hb Hmore. rewrite (Hfull i b Hb Hmore). lia.
Qed.

(** X15.  The batching of both embedding scripts, for a positive
    batch size: the batches taken in order make up the list again,
    none is empty or longer than the batch size, and every batch
    but the last is full. *)
Theorem batches_partition_the_list {A} (batch_size : Z) (l : list A) :
  0 < batch_size ->
  exists bs,
    batches batch_size l = Some bs /\
    concat bs = l /\
    Forall (fun b => 0 < Z.of_nat (length b) <= batch_size) bs /\
    (forall (i : nat) b, bs !! i = Some b -> (S i < length bs)%nat ->
       Z.of_nat (length b) = batch_size).
Proof. apply batches_spec. Qed.

Lemma batches_partition_the_list_witness :
  exists bs,
    batches 2 [1; 2; 3; 4; 5] = Some bs /\
    concat bs = [1; 2; 3; 4; 5] /\
    Forall (fun b => 0 < Z.of_nat (length b) <= 2) bs /\
    (forall (i : nat) b, bs !! i = Some b -> (S i < length bs)%nat -> Z.of_nat (length b) = 2).
Proof. apply (batches_partition_the_list 2 [1; 2; 3; 4; 5]). lia. Defined.

Lemma fst_zip_take {A B} (l : list A) : forall k : list B,
  List.map fst (zip l k) = take (length k) l.
Proof.
  induction l as [| x l IH]; intros [| y k]; simpl; try reflexivity.
  now rewrite IH.
Qed.

Lemma append_all_ids (env : Env) (l : list (json * json * json * list Q)) :
  forall acc,
    embedded_ids
      (foldl (fun acc pv =>
                acc ++ [mkEmbedding (fst (fst (fst pv))) (snd pv) "all-MiniLM-L6-v2"
                          (clock env (length acc))]) acc l)
    = embedded_ids acc ++ selected_ids (List.map fst l).
Proof.
  unfold embedded_ids, selected_ids.
  induction l as [| pv l IH]; intros acc; simpl; [now rewrite app_nil_r |].
  rewrite IH, List.map_app. simpl. now rewrite <- app_assoc.
Qed.

Lemma encode_batch_ids (env : Env) acc batch :
  exists k, embedded_ids (encode_batch env acc batch) =
            embedded_ids acc ++ take k (selected_ids batch) /\
            (forall vs, encode env (List.map (fun p => py_or (snd p) (snd (fst p))) batch)
                        = Some vs -> k = length vs).
Proof.
  unfold encode_batch.
  destruct (encode env _) as [vs |].
  - exists (length vs). rewrite append_all_ids, fst_zip_take. unfold selected_ids.
    split; [| now intros vs' [= <-]].
    f_equal. clear. revert vs. induction batch as [| p b IH]; intros [| v vs]; simpl;
      try reflexivity. now rewrite IH.
  - exists 0%nat. split; [| discriminate]. now rewrite take_0, app_nil_r.
Qed.

Lemma generated_ids (env : Env) (bs : list (list (json * json * json))) : forall acc,
  exists rest,
    embedded_ids (foldl (encode_batch env) acc bs) = embedded_ids acc ++ rest /\
    rest `sublist_of` selected_ids (concat bs) /\
    (answers_fully env -> rest = selected_ids (concat bs)).
Proof.
  induction bs as [| b bs IH]; intros acc; simpl.
  - exists []. rewrite app_nil_r. repeat split. constructor.
  - destruct (encode_batch_ids env acc b) as (k & Hb & Hk).
    destruct (IH (encode_batch env acc b)) as (rest & Hrest & Hsub & Hfull).
    exists (take k (selected_ids b) ++ rest).
    split; [now rewrite Hrest, Hb, <- app_assoc |].
    unfold selected_ids in *. rewrite List.map_app. split.
    + apply sublist_app; [apply sublist_take | exact Hsub].
    + intros Hans. rewrite (Hfull Hans). f_equal.
      destruct (Hans (List.map (fun p => py_or (snd p) (snd (fst p))) b)) as (vs & Hvs & Hlen).
      rewrite (Hk vs Hvs), Hlen, List.length_map.
      apply firstn_all2. now rewrite List.length_map.
Qed.

Lemma generate_spec (env : Env) (patents : list (json * json * json)) (batch_size : Z) :
  0 < batch_size ->
  exists data,
    generate_embeddings_batch env patents batch_size = inr data /\
    embedded_ids data `sublist_of` selected_ids patents /\
    (answers_fully env -> embedded_ids data = selected_ids patents).
Proof.
  intros Hpos. unfold generate_embeddings_batch.
  destruct (batches_spec batch_size patents Hpos) as (bs & -> & Hcat & _).
  eexists. split; [reflexivity |].
  destruct (generated_ids env bs []) as (rest & Hrest & Hsub & Hfull).
  simpl in Hrest. rewrite Hrest, <- Hcat. split; [exact Hsub | exact Hfull].
Qed.

(** X16.  [generate_embeddings_batch] with a positive batch size
    returns embeddings for a subsequence of the patents it was given,
    in their order: a batch whose encoding raises is left out, nothing
    is added or reordered.  When the model answers every batch with
    one vector for each text, the embeddings are those of all the
    patents given, in order. *)
Theorem embeddings_are_a_subsequence_of_the_selection
    (env : Env) (patents : list (json * json * json)) (batch_size : Z) :
  0 < batch_size ->
  exists data,
    generate_embeddings_batch env patents batch_size = inr data /\
    embedded_ids data `sublist_of` selected_ids patents /\
    (answers_fully env -> embedded_ids data = selected_ids patents).
Proof. apply generate_spec. Qed.

Lemma embeddings_are_a_subsequence_of_the_selection_witness :
  let env := mkEnv (fun texts => match texts with
                                 | [JStr "b"] => None
                                 | _ => Some (List.map (fun _ => [1%Q]) texts)
                                 end%string)
                   (fun _ => 0%Q) 0%Q true true in
  let patents := [(JStr "A", JStr "a", JNull); (JStr "B", JStr "b", JNull);
                  (JStr "C", JStr "c", JNull)]%string in
  exists data,
    generate_embeddings_batch env patents 1 = inr data /\
    embedded_ids data `sublist_of` selected_ids patents /\
    (answers_fully env -> embedded_ids data = selected_ids patents).
Proof.
  intros env patents.
  apply (embeddings_are_a_subsequence_of_the_selection env patents 1). lia.
Defined.

Lemma upsert_lookup_out (pts : list PointStruct) : forall (m : gmap Z Point) k,
  ~ In k (ids pts) -> upsert pts m !! k = m !! k.
Proof.
  induction pts as [| p pts IH]; intros m k Hk; [reflexivity |].
  change (upsert (p :: pts) m)
    with (upsert pts (<[id p := mkPoint (ps_vector p) (ps_payload p)]> m)).
  rewrite IH by (intros H; apply Hk; now right).
  apply lookup_insert_ne. intros Heq. apply Hk. now left.
Qed.

Lemma upsert_lookup_in (pts : list PointStruct) : forall (m : gmap Z Point) p,
  List.NoDup (ids pts) -> In p pts ->
  upsert pts m !! id p = Some (mkPoint (ps_vector p) (ps_payload p)).
Proof.
  induction pts as [| q pts IH]; intros m p Hnd Hin; [destruct Hin |].
  change (upsert (q :: pts) m)
    with (upsert pts (<[id q := mkPoint (ps_vector q) (ps_payload q)]> m)).
  simpl in Hnd. apply List.NoDup_cons_iff in Hnd as [Hq Hnd].
  destruct Hin as [<- | Hin]; [| now apply IH].
  rewrite upsert_lookup_out by exact Hq. apply lookup_insert_eq.
Qed.

Lemma positions_In {A} (l : list A) k :
  In k (positions l) <-> 0 <= k < Z.of_nat (length l).
Proof.
  unfold positions. rewrite List.in_map_iff. split.
  - intros (n & <- & Hn). apply List.in_seq in Hn. lia.
  - intros Hk. exists (Z.to_nat k). split; [lia |]. apply List.in_seq. lia.
Qed.



(** Every patent has its row in [embeddings]. *)
Definition covered (rel : Rel) : Prop :=
  forall pid, is_Some (rel_patents rel !! pid) -> is_Some (rel_embeddings rel !! pid).

Lemma needing_nil_iff (rel : Rel) : needing rel = [] <-> covered rel.
Proof.
  split.
  - intros Hnil pid [row Hrow].
    destruct (rel_embeddings rel !! pid) as [r |] eqn:Hr; [eauto |].
    assert ((pid, row) ∈ needing rel) as Hin by now apply needing_elem.
    rewrite Hnil in Hin. now apply elem_of_nil in Hin.
  - intros Hcov. destruct (needing rel) as [| [pid row] l] eqn:E; [reflexivity |].
    assert ((pid, row) ∈ needing rel) as Hin by (rewrite E; left).
    apply needing_elem in Hin as [Hrow Hnone].
    destruct (Hcov pid) as [r Hr]; [eauto | congruence].
Qed.

Lemma covered_run_is_noop (env : Env) (limit : option Z) (batch_size : Z)
    (skip_qdrant : bool) (rel : Rel) (ix : VectorIndex) :
  covered rel -> (forall n, limit = Some n -> 0 <= n) ->
  main env limit batch_size skip_qdrant (rel, ix) = (Exit0, (rel, ix)).
Proof.
  intros Hcov Hlimit. apply needing_nil_iff in Hcov.
  unfold main, get_patents_needing_embeddings. rewrite Hcov. simpl.
  destruct limit as [n |]; [| reflexivity].
  destruct (n =? 0); [reflexivity |].
  assert ((n <? 0) = false) as -> by (apply Z.ltb_ge; now apply Hlimit).
  now rewrite take_nil.
Qed.



Lemma nothing_encoded (env : Env) (bs : list (list (json * json * json))) :
  (forall texts, encode env texts = None) -> foldl (encode_batch env) [] bs = [].
Proof.
  intros Hnone. induction bs as [| b bs IH]; [reflexivity |].
  simpl. unfold encode_batch at 2. now rewrite Hnone.
Qed.





(** The points of the batches the index accepted, in order. *)
Fixpoint accepted (batch_ok : nat -> bool) (k : nat) (bs : list (list PointStruct))
  : list PointStruct :=
  match bs with
  | [] => []
  | batch :: rest => (if batch_ok k then batch else []) ++ accepted batch_ok (S k) rest
  end.

Lemma upload_spec (batch_ok : nat -> bool) (bs : list (list PointStruct)) :
  forall k uploaded m,
    upload batch_ok k bs uploaded m =
      (uploaded + Z.of_nat (length (accepted batch_ok k bs)),
       upsert (accepted batch_ok k bs) m).
Proof.
  induction bs as [| b bs IH]; intros k uploaded m; simpl.
  - now rewrite Z.add_0_r.
  - destruct (batch_ok k); rewrite IH; simpl; [| reflexivity].
    unfold upsert. rewrite foldl_app, length_app. f_equal. lia.
Qed.

Lemma accepted_sublist (batch_ok : nat -> bool) (bs : list (list PointStruct)) :
  forall k, accepted batch_ok k bs `sublist_of` concat bs.
Proof.
  induction bs as [| b bs IH]; intros k; simpl; [constructor |].
  apply sublist_app; [| apply IH]. destruct (batch_ok k); [reflexivity | apply sublist_nil_l].
Qed.

Lemma accepted_all (batch_ok : nat -> bool) (bs : list (list PointStruct)) :
  (forall k, batch_ok k = true) -> forall k, accepted batch_ok k bs = concat bs.
Proof.
  intros Hok. induction bs as [| b bs IH]; intros k; simpl; [reflexivity |].
  now rewrite Hok, IH.
Qed.

(** X21.  [populate_qdrant] with a positive batch size returns the
    number of points of the batches the index accepted: never more
    than the embeddings it was given, all of them when no batch is
    refused, in which case every point is written.  Into a collection
    that was empty (as [init_collection] leaves it) the count returned
    is the number of points the collection holds afterwards. *)
Theorem populate_counts_the_points_it_stored
    (batch_ok : nat -> bool) (embeddings : list (json * list Q * list (string * json)))
    (batch_size : Z) (ix : VectorIndex) :
  0 < batch_size ->
  exists uploaded ix',
    populate_qdrant batch_ok embeddings batch_size ix = inr (uploaded, ix') /\
    0 <= uploaded <= Z.of_nat (length embeddings) /\
    collection ix' = collection ix /\
    (points ix = ∅ -> Z.of_nat (size (points ix')) = uploaded) /\
    ((forall k, batch_ok k = true) ->
     uploaded = Z.of_nat (length embeddings) /\
     points ix' = upsert (populate_points embeddings) (points ix)).
Proof.
  intros Hpos. unfold populate_qdrant.
  destruct embeddings as [| e0 rest].
  { exists 0, ix. split; [reflexivity |]. split; [simpl; lia |]. split; [reflexivity |].
    split; [intros ->; now rewrite map_size_empty | intros _; now split]. }
  remember (e0 :: rest) as embeddings eqn:Hemb.
  destruct (batches_spec batch_size (populate_points embeddings) Hpos) as (bs & -> & Hcat & _).
  rewrite upload_spec. rewrite Z.add_0_l.
  pose proof (accepted_sublist batch_ok bs 0) as Hsub. rewrite Hcat in Hsub.
  assert (length (populate_points embeddings) = length embeddings) as Hlen
    by (unfold populate_points; apply length_imap).
  do 2 eexists. split; [reflexivity |]. cbn [collection points].
  split; [| split; [reflexivity | split]].
  - apply sublist_length in Hsub. lia.
  - intros ->. rewrite size_upsert_empty; [reflexivity |].
    apply (sublist_NoDup _ (ids (populate_points embeddings))).
    + unfold populate_points. rewrite imap_ids by reflexivity. apply positions_NoDup.
    + unfold ids. now apply (fmap_sublist id).
  - intros Hok. rewrite (accepted_all batch_ok bs Hok), Hcat. split; [lia | reflexivity].
Qed.

Lemma populate_counts_the_points_it_stored_witness :
  let rows := [(JStr "A", [1%Q], []); (JStr "B", [0%Q], []); (JStr "C", [1%Q], [])] in
  let refuse_second := fun k : nat => match k with 1%nat => false | _ => true end in
  exists uploaded ix',
    populate_qdrant refuse_second rows 1 (mkIndex (Some 384) ∅) = inr (uploaded, ix') /\
    0 <= uploaded <= Z.of_nat (length rows) /\
    collection ix' = Some 384 /\
    (points (mkIndex (Some 384) ∅) = ∅ -> Z.of_nat (size (points ix')) = uploaded) /\
    ((forall k, refuse_second k = true) ->
     uploaded = Z.of_nat (length rows) /\
     points ix' = upsert (populate_points rows) ∅).
Proof.
  intros rows refuse_second.
  apply (populate_counts_the_points_it_stored refuse_second rows 1 (mkIndex (Some 384) ∅)).
  lia.
Defined.

(** The columns of a row of [embeddings] that the conflict clause of
    [EmbeddingService.store_embeddings] leaves alone: all but
    [updated_at]. *)
Definition same_but_updated (old row : EmbeddingRow) : Prop :=
  embedding_vector row = embedding_vector old /\ model row = model old /\
  embedding_model_id row = embedding_model_id old /\
  embedding_dim row = embedding_dim old /\
  qdrant_id row = qdrant_id old /\ created_at row = created_at old.

Section Service.
Variable env : Env.
Variable rt : Loader.Runtime.
Variable model_id : string.
Variable dim : Z.

Lemma record_embedding_keeps tbl idx pid k old :
  tbl !! k = Some old ->
  exists row, record_embedding env rt model_id dim tbl idx pid !! k = Some row /\
              same_but_updated old row.
Proof.
  intros Hold. unfold record_embedding.
  destruct (decide (JStr pid = k)) as [<- | Hne].
  - rewrite Hold, lookup_insert_eq. eexists. split; [reflexivity |]. now repeat split.
  - destruct (tbl !! JStr pid); rewrite lookup_insert_ne by exact Hne;
      exists old; now repeat split.
Qed.

Lemma record_all_keeps embeddings : forall tbl idx k old,
  tbl !! k = Some old ->
  exists row, record_all env rt model_id dim tbl idx embeddings !! k = Some row /\
              same_but_updated old row.
Proof.
  induction embeddings as [| kv rest IH]; intros tbl idx k old Hold; simpl.
  - exists old. now repeat split.
  - destruct (record_embedding_keeps tbl idx (fst kv) k old Hold) as (r1 & Hr1 & H1).
    destruct (IH _ (S idx) k r1 Hr1) as (r2 & Hr2 & H2).
    exists r2. split; [exact Hr2 |]. unfold same_but_updated in *. intuition congruence.
Qed.

Lemma record_all_other embeddings pid : forall tbl idx,
  ~ In pid (List.map fst embeddings) ->
  record_all env rt model_id dim tbl idx embeddings !! JStr pid = tbl !! JStr pid.
Proof.
  induction embeddings as [| kv rest IH]; intros tbl idx Hout; simpl; [reflexivity |].
  rewrite IH by (intros H; apply Hout; now right).
  unfold record_embedding.
  assert (JStr (fst kv) <> JStr pid) as Hne
    by (intros [= Heq]; apply Hout; now left).
  destruct (tbl !! JStr (fst kv)); now rewrite lookup_insert_ne.
Qed.

Lemma record_all_fresh embeddings : forall tbl idx (i : nat) pid v,
  List.NoDup (List.map fst embeddings) ->
  embeddings !! i = Some (pid, v) ->
  tbl !! JStr pid = None ->
  record_all env rt model_id dim tbl idx embeddings !! JStr pid =
    Some (mkEmbeddingRow None None (Some model_id) (Some dim)
            (Some (Loader.py_str rt (JNum (Z.of_nat (idx + i))))) (db_now env) None).
Proof.
  induction embeddings as [| kv rest IH]; intros tbl idx i pid v Hnd Hi Hnone;
    [now rewrite lookup_nil in Hi |].
  simpl in Hnd. apply List.NoDup_cons_iff in Hnd as [Hfirst Hnd]. simpl.
  destruct i as [| i]; simpl in Hi.
  - injection Hi as ->. simpl in *. rewrite record_all_other by exact Hfirst.
    unfold record_embedding. rewrite Hnone, lookup_insert_eq, Nat.add_0_r. reflexivity.
  - replace (idx + S i)%nat with (S idx + i)%nat by lia.
    apply (IH _ (S idx) i pid v Hnd Hi).
    assert (JStr (fst kv) <> JStr pid) as Hne.
    { intros [= Heq]. apply Hfirst. rewrite Heq. apply List.in_map_iff.
      exists (pid, v). split; [reflexivity |]. apply list_elem_of_In.
      now apply (list_elem_of_lookup_2 _ i). }
    unfold record_embedding. destruct (tbl !! JStr (fst kv)); now rewrite lookup_insert_ne.
Qed.

End Service.

(** X22.  [EmbeddingService.store_embeddings] writes [qdrant_id]
    once: a patent that has no row gets [str] of its position in the
    dict, the id of its point in this write, with no vector in the
    row; a row that exists keeps its [qdrant_id] and every other
    column but [updated_at], wherever the patent stands in the dict
    now.  This holds whether the vector index then accepts the points
    or not. *)
Theorem qdrant_id_is_written_once
    (env : Env) (rt : Loader.Runtime) (model_id : string) (dim : Z)
    (embeddings : list (string * list Q)) (rel : Rel) (ix : VectorIndex) :
  sql_ok env = true ->
  let st' := snd (store_embeddings env rt model_id dim embeddings (rel, ix)) in
  (forall k old, rel_embeddings rel !! k = Some old ->
     exists row, rel_embeddings (fst st') !! k = Some row /\ same_but_updated old row) /\
  (List.NoDup (List.map fst embeddings) ->
   forall (i : nat) pid v,
     embeddings !! i = Some (pid, v) ->
     rel_embeddings rel !! JStr pid = None ->
     id <$> service_points embeddings !! i = Some (Z.of_nat i) /\
     rel_embeddings (fst st') !! JStr pid =
       Some (mkEmbeddingRow None None (Some model_id) (Some dim)
               (Some (Loader.py_str rt (JNum (Z.of_nat i)))) (db_now env) None)).
Proof.
  intros Hsql st'.
  assert (rel_embeddings (fst st') =
          record_all env rt model_id dim (rel_embeddings rel) 0 embeddings) as ->.
  { unfold st', store_embeddings. rewrite Hsql. now destruct (index_up env). }
  split.
  - intros k old Hold. now apply record_all_keeps.
  - intros Hnd i pid v Hi Hnone. split.
    + unfold service_points. now rewrite list_lookup_imap, Hi.
    + now apply (record_all_fresh env rt model_id dim embeddings _ 0 i pid v).
Qed.

Lemma qdrant_id_is_written_once_witness :
  let env := mkEnv (fun _ => None) (fun _ => 0%Q) 7%Q true false in
  let old := mkEmbeddingRow None None (Some "m"%string) (Some 2) (Some "0"%string) 1%Q None in
  let rel := mkRel ∅ {[JStr "B" := old]} in
  let embeddings := [("A", [1%Q; 0%Q]); ("B", [0%Q; 1%Q])]%string in
  let st' := snd (store_embeddings env Examples.runtime "m" 2 embeddings (rel, empty_index)) in
  (forall k r, rel_embeddings rel !! k = Some r ->
     exists row, rel_embeddings (fst st') !! k = Some row /\ same_but_updated r row) /\
  (List.NoDup (List.map fst embeddings) ->
   forall (i : nat) pid v,
     embeddings !! i = Some (pid, v) ->
     rel_embeddings rel !! JStr pid = None ->
     id <$> service_points embeddings !! i = Some (Z.of_nat i) /\
     rel_embeddings (fst st') !! JStr pid =
       Some (mkEmbeddingRow None None (Some "m"%string) (Some 2)
               (Some (Examples.str (JNum (Z.of_nat i)))) 7%Q None)).
Proof.
  intros env old rel embeddings.
  apply (qdrant_id_is_written_once env Examples.runtime "m" 2 embeddings rel empty_index).
  reflexivity.
Defined.

End EmbedMore.

(* ===================================================================== *)
(** ** The novelty score: its range and its failure *)
(* ===================================================================== *)

Module NoveltyProps.
Import Json Db Embed Novelty.

(** What a score can be, according to whether the patent has a row
    in [embeddings]. *)
Definition plausible (rel : Rel) (patent_id : json) (v : Q) : Prop :=
  match rel_embeddings rel !! patent_id with
  | None => (v == 50)%Q
  | Some _ => (25 <= v <= 65)%Q
  end.

Lemma features_shape today rel patent_id features :
  compute_features today rel patent_id = inr (Some features) ->
  is_Some (rel_embeddings rel !! patent_id) /\
  embedding_distance features = (1 # 2)%Q /\
  (is_recent features = 0 \/ is_recent features = 1) /\
  1 <= num_cpcs features.
Proof.
  unfold compute_features.
  destruct (rel_embeddings rel !! patent_id) as [e |]; [| discriminate].
  destruct (rel_patents rel !! patent_id) as [row |].
  - destruct (filing_date row) as [filed |]; [| discriminate].
    intros [= <-]. simpl. split; [eauto |]. split; [reflexivity |]. split.
    + destruct (_ <? 30); auto.
    + destruct (cpc_codes row); simpl; lia.
  - intros [= <-]. simpl. split; [eauto |]. split; [reflexivity |]. split; [auto | lia].
Qed.

Lemma score_of_bounds features :
  embedding_distance features = (1 # 2)%Q ->
  (is_recent features = 0 \/ is_recent features = 1) ->
  1 <= num_cpcs features ->
  (25 <= score_of features <= 65)%Q.
Proof.
  intros Hd Hr Hn. unfold score_of. rewrite Hd.
  set (z := Z.min (num_cpcs features * 10) 30).
  assert (inject_Z 10 <= inject_Z z)%Q as Hlo by (rewrite <- Zle_Qle; unfold z; lia).
  assert (inject_Z z <= inject_Z 30)%Q as Hhi by (rewrite <- Zle_Qle; unfold z; lia).
  change (inject_Z 10) with 10%Q in Hlo. change (inject_Z 30) with 30%Q in Hhi.
  set (x := inject_Z z) in *. clearbody x.
  destruct Hr as [-> | ->];
    [change (inject_Z (0 * 20)) with 0%Q | change (inject_Z (1 * 20)) with 20%Q];
    unfold py_min, py_max;
    repeat (destruct (Qlt_le_dec _ _)); split; lra.
Qed.

Lemma score_loop_spec today rel patent_ids : forall n scores result,
  score_loop today rel n patent_ids scores = inr result ->
  (forall k, is_Some (result !! k) <-> In k patent_ids \/ is_Some (scores !! k)) /\
  ((forall k v, scores !! k = Some v -> plausible rel k v) ->
   forall k v, result !! k = Some v -> plausible rel k v).
Proof.
  induction patent_ids as [| pid rest IH]; intros n scores result; simpl.
  - intros [= <-]. split; [intros k; tauto | auto].
  - destruct (compute_features (today n) rel pid) as [e | [features |]] eqn:Hf;
      [discriminate | |]; intros Hrun; apply IH in Hrun as [Hkeys Hvals]; split.
    + intros k. rewrite Hkeys. destruct (decide (pid = k)) as [-> | Hne].
      * rewrite lookup_insert_eq. split; [auto | eauto].
      * rewrite lookup_insert_ne by exact Hne. tauto.
    + intros Hscores. apply Hvals. intros k v.
      destruct (decide (pid = k)) as [-> | Hne].
      * rewrite lookup_insert_eq. intros [= <-].
        destruct (features_shape _ _ _ _ Hf) as ([e He] & Hd & Hr & Hn).
        unfold plausible. rewrite He. now apply score_of_bounds.
      * rewrite lookup_insert_ne by exact Hne. apply Hscores.
    + intros k. rewrite Hkeys. destruct (decide (pid = k)) as [-> | Hne].
      * rewrite lookup_insert_eq. split; [auto | eauto].
      * rewrite lookup_insert_ne by exact Hne. tauto.
    + intros Hscores. apply Hvals. intros k v.
      destruct (decide (pid = k)) as [-> | Hne].
      * rewrite lookup_insert_eq. intros [= <-].
        unfold plausible. unfold compute_features in Hf.
        destruct (rel_embeddings rel !! k); [| reflexivity].
        destruct (rel_patents rel !! k) as [row |]; [| discriminate].
        destruct (filing_date row); discriminate.
      * rewrite lookup_insert_ne by exact Hne. apply Hscores.
Qed.

(** X23.  When [score_patents] returns, it has a score for each of
    the patents asked for and for no other; a patent with no row in
    [embeddings] has the default 50; every other score lies between
    25 and 65, so that the clamp to the range 0 to 100 never applies
    and neither end of that range is reached. *)
Theorem novelty_scores_lie_between_25_and_65
    (today : nat -> Z) (rel : Rel) (patent_ids : list json) (scores : gmap json Q) :
  score_patents today rel patent_ids = inr scores ->
  (forall k, is_Some (scores !! k) <-> In k patent_ids) /\
  (forall k v, scores !! k = Some v ->
     match rel_embeddings rel !! k with
     | None => (v == 50)%Q
     | Some _ => (25 <= v <= 65)%Q
     end).
Proof.
  intros Hrun. apply score_loop_spec in Hrun as [Hkeys Hvals]. split.
  - intros k. rewrite Hkeys, lookup_empty. split; [| auto].
    intros [H | [x Hx]]; [exact H | discriminate].
  - apply Hvals. intros k v Hk. now rewrite lookup_empty in Hk.
Qed.

Lemma novelty_scores_lie_between_25_and_65_witness :
  let row := mkPatentRow (JStr "US1") None (Some (inject_Z (100 * 86400))) (JStr "t") JNull
               JNull None ["G06F"; "H04L"; "A01B"; "B60K"]%string 9 EmptyString 0%Q None in
  let rel := mkRel {[JStr "P" := row]}
               {[JStr "P" := mkEmbeddingRow None None None None (Some "0"%string) 0%Q None]} in
  exists scores,
    score_patents (fun _ => 110) rel [JStr "P"; JStr "Q"] = inr scores /\
    (forall k, is_Some (scores !! k) <-> In k [JStr "P"; JStr "Q"]) /\
    (forall k v, scores !! k = Some v ->
       match rel_embeddings rel !! k with
       | None => (v == 50)%Q
       | Some _ => (25 <= v <= 65)%Q
       end).
Proof.
  intros row rel.
  assert (exists scores, score_patents (fun _ => 110) rel [JStr "P"; JStr "Q"] = inr scores)
    as [scores Hrun].
  { unfold score_patents. simpl score_loop.
    assert (compute_features 110 rel (JStr "P") = inr (Some (mkFeatures (1 # 2) 10 9 4 1)))
      as -> by (vm_compute; reflexivity).
    assert (compute_features 110 rel (JStr "Q") = inr None) as -> by (vm_compute; reflexivity).
    eexists. reflexivity. }
  exists scores. split; [exact Hrun |].
  exact (novelty_scores_lie_between_25_and_65 (fun _ => 110) rel [JStr "P"; JStr "Q"]
           scores Hrun).
Defined.

(** X24.  One patent with a row in [embeddings] and a stored patent
    row whose [filing_date] is [NULL] makes [score_patents] raise a
    [TypeError]: no score is returned for any patent of the list. *)
Theorem a_null_filing_date_fails_the_whole_scoring
    (today : nat -> Z) (rel : Rel) (patent_ids : list json) (patent_id : json)
    (row : PatentRow) :
  In patent_id patent_ids ->
  is_Some (rel_embeddings rel !! patent_id) ->
  rel_patents rel !! patent_id = Some row ->
  filing_date row = None ->
  score_patents today rel patent_ids = inl TypeError.
Proof.
  intros Hin [e He] Hrow Hnull. unfold score_patents.
  generalize (∅ : gmap json Q) as scores. generalize 0%nat as n.
  induction patent_ids as [| pid rest IH]; intros n scores; [destruct Hin |].
  simpl. destruct (compute_features (today n) rel pid) as [[] | [features |]] eqn:Hf;
    [reflexivity | |].
  - destruct Hin as [-> | Hin]; [| now apply IH].
    unfold compute_features in Hf. rewrite He, Hrow, Hnull in Hf. discriminate.
  - destruct Hin as [-> | Hin]; [| now apply IH].
    unfold compute_features in Hf. rewrite He, Hrow, Hnull in Hf. discriminate.
Qed.

Lemma a_null_filing_date_fails_the_whole_scoring_witness :
  let good := mkPatentRow (JStr "US1") None (Some (inject_Z (100 * 86400))) (JStr "t") JNull
                JNull None [] 0 EmptyString 0%Q None in
  let bad := mkPatentRow (JStr "US2") None None (JStr "u") JNull JNull None [] 0
               EmptyString 0%Q None in
  let erow := mkEmbeddingRow None None None None (Some "0"%string) 0%Q None in
  let rel := mkRel {[JStr "P" := good; JStr "N" := bad]} {[JStr "P" := erow; JStr "N" := erow]} in
  score_patents (fun _ => 110) rel [JStr "P"; JStr "N"] = inl TypeError.
Proof.
  intros good bad erow rel.
  apply (a_null_filing_date_fails_the_whole_scoring (fun _ => 110) rel
           [JStr "P"; JStr "N"] (JStr "N") bad).
  - right. left. reflexivity.
  - vm_compute. eauto.
  - vm_compute. reflexivity.
  - reflexivity.
Defined.

End NoveltyProps.
